(** * jsx-curly-spacing: a shallow embedding of [src/rules/jsxCurlySpacingRule.ts]

    The rule is a tslint walker that looks at the text of three kinds of JSX
    nodes and reports spacing violations inside curly braces.  The
    development has three layers:

    - [JS]: the parts of the ECMAScript runtime the rule calls (strings as
      sequences of UTF-16 code units, the backtracking regular-expression
      matcher, [RegExp.prototype.exec], [String.prototype.match],
      [indexOf], [substring]);
    - [Host]: the parts of TypeScript and tslint the rule calls (syntax
      nodes, options, the failure list of a walker, the tree traversal);
    - [Rule]: the rule itself, function by function. *)

From Stdlib Require Import List ZArith NArith Lia Bool String Ascii.
Import ListNotations.

Set Implicit Arguments.
Set Warnings "-register-all".

(* ===================================================================== *)
(** * The JavaScript runtime                                              *)
(* ===================================================================== *)

Module JS.

(** A JavaScript string is a finite sequence of 16-bit code units;
    [length] counts code units, as [String.prototype.length] does. *)
Definition code_unit := N.
Definition jsstring := list code_unit.

(** Literals of the source, which are all ASCII. *)
Definition lit (s : string) : jsstring :=
  map N_of_ascii (list_ascii_of_string s).

Definition LBRACE : code_unit := 123%N.
Definition RBRACE : code_unit := 125%N.
Definition DOT : code_unit := 46%N.
Definition LF : code_unit := 10%N.
Definition SPACE : code_unit := 32%N.

Definition in_range (lo hi c : N) : bool := (lo <=? c)%N && (c <=? hi)%N.

(** The class [\s]: WhiteSpace and LineTerminator code points
    (ECMA-262, CharacterClassEscape), with the space separators of
    Unicode 6.3 and later.  The proofs use this definition only through
    its values on ASCII characters. *)
Definition isWhiteSpace (c : code_unit) : bool :=
  in_range 9 13 c            (* TAB LF VT FF CR *)
  || (c =? 32)%N             (* SP *)
  || (c =? 160)%N            (* NBSP *)
  || (c =? 5760)%N           (* U+1680 *)
  || in_range 8192 8202 c    (* U+2000 .. U+200A *)
  || (c =? 8232)%N           (* LS *)
  || (c =? 8233)%N           (* PS *)
  || (c =? 8239)%N           (* U+202F *)
  || (c =? 8287)%N           (* U+205F *)
  || (c =? 12288)%N          (* U+3000 *)
  || (c =? 65279)%N.         (* BOM *)

(** The class [\w]: [A-Za-z0-9_]. *)
Definition isWordChar (c : code_unit) : bool :=
  in_range 97 122 c || in_range 65 90 c || in_range 48 57 c || (c =? 95)%N.

Definition isChar (x : code_unit) (c : code_unit) : bool := (c =? x)%N.
Definition notWhiteSpace (c : code_unit) : bool := negb (isWhiteSpace c).
Definition anyChar (c : code_unit) : bool := isWhiteSpace c || notWhiteSpace c.

Arguments isWhiteSpace : simpl never.
Arguments isWordChar : simpl never.
Arguments isChar : simpl never.
Arguments notWhiteSpace : simpl never.
Arguments anyChar : simpl never.

(** ** Patterns

    The fragment of the pattern language the rule's three regular
    expressions use.  Capture groups only record submatches, which the rule
    never reads, so [( ... )] and [(?: ... )] are both plain grouping.
    Quantifiers are applied to single-character atoms everywhere in the
    source except for the two [( ... )?] groups. *)
Inductive regex : Type :=
| Chr (p : code_unit -> bool)        (* a character, escape or class *)
| Seq (r1 r2 : regex)                (* r1 r2 *)
| Alt (r1 r2 : regex)                (* r1|r2, left alternative first *)
| Opt (r : regex)                    (* r?   greedy *)
| Star (p : code_unit -> bool)       (* a*   greedy, a a one-character atom *)
| StarLazy (p : code_unit -> bool)   (* a*?  lazy *)
| Bos                                (* ^ without the multiline flag *)
| Eos.                               (* $ without the multiline flag *)

(** ** The backtracking matcher

    ECMA-262 gives pattern semantics as matchers in continuation-passing
    style: a matcher takes the current end index and a continuation and
    returns the first success in priority order.  [pos] is the current
    index and [s] the input from [pos] on; the result is the end index of
    the whole match. *)
Definition continuation := nat -> jsstring -> option nat.

Definition orElse (a : option nat) (b : unit -> option nat) : option nat :=
  match a with
  | Some e => Some e
  | None => b tt
  end.

Fixpoint star_greedy (p : code_unit -> bool) (k : continuation)
         (pos : nat) (s : jsstring) : option nat :=
  match s with
  | c :: s' =>
      if p c
      then orElse (star_greedy p k (S pos) s') (fun _ => k pos s)
      else k pos s
  | [] => k pos s
  end.

Fixpoint star_lazy (p : code_unit -> bool) (k : continuation)
         (pos : nat) (s : jsstring) : option nat :=
  orElse (k pos s)
         (fun _ => match s with
                   | c :: s' => if p c then star_lazy p k (S pos) s' else None
                   | [] => None
                   end).

Fixpoint rmatch (r : regex) (pos : nat) (s : jsstring) (k : continuation)
  : option nat :=
  match r with
  | Chr p =>
      match s with
      | c :: s' => if p c then k (S pos) s' else None
      | [] => None
      end
  | Seq r1 r2 => rmatch r1 pos s (fun pos' s' => rmatch r2 pos' s' k)
  | Alt r1 r2 => orElse (rmatch r1 pos s k) (fun _ => rmatch r2 pos s k)
  | Opt r1 =>
      (* RepeatMatcher with min = 0, max = 1: an iteration that consumes
         nothing is rejected *)
      orElse (rmatch r1 pos s
                     (fun pos' s' => if Nat.eqb pos' pos then None else k pos' s'))
             (fun _ => k pos s)
  | Star p => star_greedy p k pos s
  | StarLazy p => star_lazy p k pos s
  | Bos => if Nat.eqb pos 0 then k pos s else None
  | Eos => match s with [] => k pos s | _ :: _ => None end
  end.

(** ** RegExp objects *)
Record RegExp : Type := mkRegExp { source : regex; global : bool }.

(** The scan of [RegExp.prototype.exec]: try index [i], then [i+1], ...,
    up to and including the length of the input.  [s] is the input from
    [i] on.  Returns the index and the end index of the match. *)
Fixpoint search (r : regex) (i : nat) (s : jsstring) : option (nat * nat) :=
  match rmatch r i s (fun e _ => Some e) with
  | Some e => Some (i, e)
  | None =>
      match s with
      | [] => None
      | _ :: s' => search r (S i) s'
      end
  end.

(** [S.substring(from, to)] for indices already in range. *)
Definition slice (text : jsstring) (from to : nat) : jsstring :=
  firstn (to - from) (skipn from text).

(** [RegExp.prototype.exec]: the result is the matched substring (element
    0 of the result array) or [None] for [null], together with the new
    value of [lastIndex].  [lastIndex] is read only when the regular
    expression is global. *)
Definition exec (re : RegExp) (lastIndex : nat) (text : jsstring)
  : option jsstring * nat :=
  let i := if global re then lastIndex else 0 in
  if Nat.ltb (List.length text) i then (None, 0)
  else
    match search (source re) i (skipn i text) with
    | None => (None, 0)
    | Some (b, e) => (Some (slice text b e), if global re then e else lastIndex)
    end.

(** The loop of [String.prototype.match] for a global regular expression
    (ECMA-262 5.1, 15.5.4.10 step 8).  Every iteration moves [lastIndex]
    forward, so [S (S (length text))] iterations are enough; [None] is
    fuel exhaustion, which [matchLoop_fuel] shows does not happen. *)
Fixpoint matchLoop (fuel : nat) (re : RegExp) (text : jsstring)
         (lastIndex previousLastIndex : nat) (A : list jsstring)
  : option (list jsstring) :=
  match fuel with
  | O => None
  | S fuel' =>
      match exec re lastIndex text with
      | (None, _) => Some A
      | (Some matchStr, thisIndex) =>
          if Nat.eqb thisIndex previousLastIndex
          then matchLoop fuel' re text (thisIndex + 1) (thisIndex + 1) (A ++ [matchStr])
          else matchLoop fuel' re text thisIndex thisIndex (A ++ [matchStr])
      end
  end.

(** The array the loop builds, from [lastIndex] 0.  The [None] branch is
    dead code for a global regular expression ([matchAll_terminates]). *)
Definition matchAll (re : RegExp) (text : jsstring) : list jsstring :=
  match matchLoop (S (S (List.length text))) re text 0 0 [] with
  | Some A => A
  | None => []
  end.

(** [text.match(re)]: the result array ([None] for [null]) and the new
    [lastIndex] of [re].  For a global regular expression [lastIndex] is
    first reset to 0 and is 0 again after the last, failing, [exec]. *)
Definition String_match (text : jsstring) (re : RegExp) (lastIndex : nat)
  : option (list jsstring) * nat :=
  if global re
  then
    match matchAll re text with
    | [] => (None, 0)
    | A => (Some A, 0)
    end
  else
    match exec re lastIndex text with
    | (None, li) => (None, li)
    | (Some m, li) => (Some [m], li)
    end.

(** [!!x] for [x] an array or [null]. *)
Definition truthy (A : Type) (x : option A) : bool :=
  match x with Some _ => true | None => false end.

Fixpoint isPrefix (m text : jsstring) : bool :=
  match m, text with
  | [], _ => true
  | _ :: _, [] => false
  | a :: m', b :: text' => (a =? b)%N && isPrefix m' text'
  end.

(** [text.indexOf(m)]: the smallest index at which [m] occurs, or -1. *)
Fixpoint indexOf_from (text m : jsstring) (k : Z) : Z :=
  if isPrefix m text then k
  else
    match text with
    | [] => (-1)%Z
    | _ :: text' => indexOf_from text' m (k + 1)
    end.

Definition indexOf (text m : jsstring) : Z := indexOf_from text m 0.

(** [text.substring(a, b)]: both arguments are clamped to
    [0 .. length] and swapped when out of order. *)
Definition substring (text : jsstring) (a b : Z) : jsstring :=
  let len := Z.of_nat (List.length text) in
  let a' := Z.min (Z.max a 0) len in
  let b' := Z.min (Z.max b 0) len in
  slice text (Z.to_nat (Z.min a' b')) (Z.to_nat (Z.max a' b')).

Fixpoint jsstring_eqb (a b : jsstring) : bool :=
  match a, b with
  | [], [] => true
  | x :: a', y :: b' => (x =? y)%N && jsstring_eqb a' b'
  | _, _ => false
  end.

(** [arr.indexOf(x)] on an array of strings, with strict equality. *)
Fixpoint Array_indexOf_from (arr : list jsstring) (x : jsstring) (k : Z) : Z :=
  match arr with
  | [] => (-1)%Z
  | y :: arr' => if jsstring_eqb y x then k else Array_indexOf_from arr' x (k + 1)
  end.

Definition Array_indexOf (arr : list jsstring) (x : jsstring) : Z :=
  Array_indexOf_from arr x 0.

End JS.

(* ===================================================================== *)
(** * The host: TypeScript nodes and the tslint walker                    *)
(* ===================================================================== *)

Module Host.
Import JS.

(** The node kinds the walker distinguishes; every other kind is only
    traversed. *)
Inductive SyntaxKind : Type :=
| JsxElement
| JsxSelfClosingElement
| JsxExpression
| JsxAttribute
| OtherKind.

(** A node of the syntax tree: its kind, the offset of its first token,
    its end offset, and its children in document order. *)
Inductive Node : Type :=
| mkNode (kind : SyntaxKind) (start stop : Z) (children : list Node).

Definition kind (n : Node) : SyntaxKind := let (k, _, _, _) := n in k.
Definition getStart (n : Node) : Z := let (_, s, _, _) := n in s.
Definition getEnd (n : Node) : Z := let (_, _, e, _) := n in e.
Definition children (n : Node) : list Node := let (_, _, _, cs) := n in cs.

Definition getWidth (n : Node) : Z := getEnd n - getStart n.

(** [node.getText()]: the text of the source file between the start of the
    node's first token and the node's end. *)
Definition getText (sourceFile : jsstring) (n : Node) : jsstring :=
  substring sourceFile (getStart n) (getEnd n).

(** The tree invariant of the parser: a node lies inside the file. *)
Definition inFile (sourceFile : jsstring) (n : Node) : Prop :=
  (0 <= getStart n <= getEnd n)%Z /\ (getEnd n <= Z.of_nat (List.length sourceFile))%Z.

Record RuleFailure : Type := createFailure
  { failureStart : Z; failureWidth : Z; failureMessage : string }.

(** What a walk can change: the calls the rule has made to [addFailure],
    in order ([failures]), and the [lastIndex] slot of the one global
    regular expression the rule owns.  The list the walker itself keeps is
    computed from the calls by [getFailures].  The rule's other two
    regular expressions are not global, so their [lastIndex] is never read
    and is not kept here. *)
Record WalkerState : Type := mkState
  { failures : list RuleFailure; spreadLastIndex : nat }.

(** A walker method either completes or throws a [TypeError] (calling a
    method on [null]). *)
Inductive Outcome (A : Type) : Type :=
| Ok (a : A) (st : WalkerState)
| TypeError.
Arguments TypeError {A}.

Definition Walker (A : Type) : Type := WalkerState -> Outcome A.

Definition ret (A : Type) (a : A) : Walker A := fun st => Ok a st.

Definition bind (A B : Type) (m : Walker A) (f : A -> Walker B) : Walker B :=
  fun st =>
    match m st with
    | Ok a st' => f a st'
    | TypeError => TypeError
    end.

Definition throwTypeError (A : Type) : Walker A := fun _ => TypeError.

Declare Scope walker_scope.
Delimit Scope walker_scope with walker.
Notation "x <- m ;; f" := (bind m (fun x => f))
  (at level 61, m at next level, right associativity) : walker_scope.
Notation "m ;; f" := (bind m (fun _ => f))
  (at level 61, right associativity) : walker_scope.

(** [this.addFailure(f)] as a call: the state records that the rule
    handed [f] to the walker.  What the walker does with the call is
    [pushFailure] below. *)
Definition addFailure (f : RuleFailure) : Walker unit :=
  fun st => Ok tt (mkState (failures st ++ [f]) (spreadLastIndex st)).

(** [RuleFailure.equals]: the same message, start position and end
    position (all failures of a walk are in one file). *)
Definition RuleFailure_equals (f g : RuleFailure) : bool :=
  String.eqb (failureMessage f) (failureMessage g)
  && (failureStart f =? failureStart g)%Z
  && (failureStart f + failureWidth f =? failureStart g + failureWidth g)%Z.

(** [RuleWalker.existsFailure]: some recorded failure equals this one. *)
Definition existsFailure (kept : list RuleFailure) (failure : RuleFailure) : bool :=
  existsb (fun f => RuleFailure_equals f failure) kept.

(** The body of [RuleWalker.addFailure] on the walker's list: a failure
    equal to one already recorded is skipped, any other is pushed.  The
    file is taken to have no interval in which the rule is disabled. *)
Definition pushFailure (kept : list RuleFailure) (failure : RuleFailure)
  : list RuleFailure :=
  if existsFailure kept failure then kept else kept ++ [failure].

(** The walker's list after a sequence of calls to [addFailure], from the
    empty list of a new walker. *)
Definition keptFailures (calls : list RuleFailure) : list RuleFailure :=
  fold_left pushFailure calls [].

(** [walker.getFailures()]. *)
Definition getFailures (st : WalkerState) : list RuleFailure :=
  keptFailures (failures st).

(** [this.hasOption(o)]: [o] occurs among the rule's arguments. *)
Definition hasOption (options : list string) (o : string) : bool :=
  existsb (String.eqb o) options.

(** [arr.forEach(f)]. *)
Fixpoint forEach (A : Type) (arr : list A) (f : A -> Walker unit) : Walker unit :=
  match arr with
  | [] => ret tt
  | x :: arr' => bind (f x) (fun _ => forEach arr' f)
  end.

(** The visitor methods a rule may override; each receives the node and
    the inherited method (its [super] call), which walks the children. *)
Record Visitor : Type := mkVisitor
  { onJsxAttribute : Node -> Walker unit -> Walker unit;
    onJsxElement : Node -> Walker unit -> Walker unit;
    onJsxExpression : Node -> Walker unit -> Walker unit;
    onJsxSelfClosingElement : Node -> Walker unit -> Walker unit }.

(** [visitNode]: dispatch on the kind of the node; the inherited methods
    visit the children from left to right. *)
Fixpoint visitNode (v : Visitor) (n : Node) : Walker unit :=
  match n with
  | mkNode k _ _ cs =>
      let walkChildren :=
        (fix go (cs : list Node) : Walker unit :=
           match cs with
           | [] => ret tt
           | c :: cs' => bind (visitNode v c) (fun _ => go cs')
           end) cs in
      match k with
      | JsxAttribute => onJsxAttribute v n walkChildren
      | JsxElement => onJsxElement v n walkChildren
      | JsxExpression => onJsxExpression v n walkChildren
      | JsxSelfClosingElement => onJsxSelfClosingElement v n walkChildren
      | OtherKind => walkChildren
      end
  end.

End Host.

(* ===================================================================== *)
(** * The rule                                                            *)
(* ===================================================================== *)

Module Rule.
Import JS Host.
Local Open Scope walker_scope.

Definition OPTION_ALWAYS : string := "always".
Definition OPTION_NEVER : string := "never".

Definition ALWAYS_FAILURE_STRING : string :=
  "Curly braces should always have spaces inside".
Definition NEVER_FAILURE_STRING : string :=
  "Curly braces should never have spaces inside".

Infix "@@" := Seq (at level 60, right associativity).

Definition wordOrDot (c : code_unit) : bool := isWordChar c || isChar DOT c.

(** The source pattern, with blanks between its pieces:
      /  \{  \s*  \.{3}  [\w\.]*  \s*  }  /g  *)
Definition spreadRegEx : RegExp :=
  mkRegExp
    (Chr (isChar LBRACE) @@ Star isWhiteSpace
       @@ (Chr (isChar DOT) @@ Chr (isChar DOT) @@ Chr (isChar DOT))
       @@ Star wordOrDot @@ Star isWhiteSpace @@ Chr (isChar RBRACE))
    true.

(** The source pattern, with blanks between its pieces:
      /  ^  \{  (?: \s | \n )  [\s\S]*?  (?: \s | (?: \n \s* ) )  }  $  /  *)
Definition spacedBracesRegex : RegExp :=
  mkRegExp
    (Bos @@ Chr (isChar LBRACE)
       @@ Alt (Chr isWhiteSpace) (Chr (isChar LF))
       @@ StarLazy anyChar
       @@ Alt (Chr isWhiteSpace) (Chr (isChar LF) @@ Star isWhiteSpace)
       @@ Chr (isChar RBRACE) @@ Eos)
    false.

(** The source pattern, with blanks between its pieces:
      /  ^  ( \{  ( ( \n \s* )?  ( \S  [\s\S]*? ) )  [^\s]  ( \n \s* )?  } )  $  /  *)
Definition spacelessBracesRegex : RegExp :=
  mkRegExp
    (Bos
       @@ (Chr (isChar LBRACE)
             @@ (Opt (Chr (isChar LF) @@ Star isWhiteSpace)
                   @@ (Chr notWhiteSpace @@ StarLazy anyChar))
             @@ Chr notWhiteSpace
             @@ Opt (Chr (isChar LF) @@ Star isWhiteSpace)
             @@ Chr (isChar RBRACE))
       @@ Eos)
    false.

Definition hasSpreadInJsx (text : jsstring) : Walker bool :=
  fun st =>
    let (r, li) := String_match text spreadRegEx (spreadLastIndex st) in
    Ok (truthy r) (mkState (failures st) li).

Definition getJsxSpreads (text : jsstring) : Walker (option (list jsstring)) :=
  fun st =>
    let (r, li) := String_match text spreadRegEx (spreadLastIndex st) in
    Ok r (mkState (failures st) li).

Definition isSkippableExpression (text : jsstring) : bool :=
  negb (Array_indexOf [lit "{"; lit "{..."; lit "{ ..."] text =? -1)%Z.

Section Walker.

(** The fields of a walker instance: the rule's arguments and the source
    file it walks. *)
Variable options : list string.
Variable sourceFile : jsstring.

(** The two regular expressions used here are not global: [match] does
    not read their [lastIndex], which is passed as 0 and dropped. *)
Definition isValidExpression (text : jsstring) : bool :=
  let always := hasOption options OPTION_ALWAYS in
  let never := hasOption options OPTION_NEVER in
  if always then truthy (fst (String_match text spacedBracesRegex 0))
  else if never then truthy (fst (String_match text spacelessBracesRegex 0))
  else true.

Definition handleJsxSpreadNode (node : Node) : Walker unit :=
  let always := hasOption options OPTION_ALWAYS in
  let never := hasOption options OPTION_NEVER in
  let text := getText sourceFile node in
  spreads <- getJsxSpreads text ;;
  match spreads with
  | None => throwTypeError unit
  | Some arr =>
      forEach arr (fun match_ =>
        if negb (isValidExpression match_) then
          let start := (getStart node + indexOf text match_)%Z in
          let width := Z.of_nat (List.length match_) in
          if always then addFailure (createFailure start width ALWAYS_FAILURE_STRING)
          else if never then addFailure (createFailure start width NEVER_FAILURE_STRING)
          else ret tt
        else ret tt)
  end.

Definition visitJsxAttribute (node : Node) (super : Walker unit) : Walker unit :=
  super.

Definition visitJsxElement (node : Node) (super : Walker unit) : Walker unit :=
  let text := getText sourceFile node in
  b <- hasSpreadInJsx text ;;
  (if b then handleJsxSpreadNode node else ret tt) ;;
  super.

Definition visitJsxExpression (node : Node) (super : Walker unit) : Walker unit :=
  let always := hasOption options OPTION_ALWAYS in
  let never := hasOption options OPTION_NEVER in
  let text := getText sourceFile node in
  (if negb (isSkippableExpression text) && negb (isValidExpression text) then
     if always then
       addFailure (createFailure (getStart node) (getWidth node) ALWAYS_FAILURE_STRING)
     else if never then
       addFailure (createFailure (getStart node) (getWidth node) NEVER_FAILURE_STRING)
     else ret tt
   else ret tt) ;;
  super.

Definition visitJsxSelfClosingElement (node : Node) (super : Walker unit) : Walker unit :=
  let text := getText sourceFile node in
  b <- hasSpreadInJsx text ;;
  (if b then handleJsxSpreadNode node else ret tt) ;;
  super.

Definition JsxCurlySpacingWalker : Visitor :=
  mkVisitor visitJsxAttribute visitJsxElement visitJsxExpression
            visitJsxSelfClosingElement.

(** [Rule.apply]: a new walker, with an empty failure list, walks the
    tree; the result is the list the walker kept ([getFailures]).  The
    static regular expression outlives the walker, so its [lastIndex] is
    threaded through. *)
Definition apply (root : Node) (lastIndex : nat) : Outcome (list RuleFailure) :=
  match visitNode JsxCurlySpacingWalker root (mkState [] lastIndex) with
  | Ok _ st => Ok (getFailures st) st
  | TypeError => TypeError
  end.

End Walker.

End Rule.

(* ===================================================================== *)
(** * Specification vocabulary                                            *)
(* ===================================================================== *)

(** The words of the specification, stated independently of the regular
    expressions, and the observations on walker methods the theorems
    use. *)
Module Spec.
Import JS Host Rule.

(** Which strings a pattern matches at a position: [matches r pos s rest]
    says that [r] can consume exactly [s] at index [pos] when [rest] is
    what follows.  This is the declarative reading of the pattern, without
    any order among the alternatives. *)
Inductive matches : regex -> nat -> jsstring -> jsstring -> Prop :=
| M_Chr p c pos rest :
    p c = true -> matches (Chr p) pos [c] rest
| M_Seq r1 r2 pos s1 s2 rest :
    matches r1 pos s1 (s2 ++ rest) ->
    matches r2 (pos + List.length s1) s2 rest ->
    matches (Seq r1 r2) pos (s1 ++ s2) rest
| M_AltL r1 r2 pos s rest :
    matches r1 pos s rest -> matches (Alt r1 r2) pos s rest
| M_AltR r1 r2 pos s rest :
    matches r2 pos s rest -> matches (Alt r1 r2) pos s rest
| M_OptNone r pos rest :
    matches (Opt r) pos [] rest
| M_OptSome r pos s rest :
    matches r pos s rest -> s <> [] -> matches (Opt r) pos s rest
| M_Star p pos s rest :
    forallb p s = true -> matches (Star p) pos s rest
| M_StarLazy p pos s rest :
    forallb p s = true -> matches (StarLazy p) pos s rest
| M_Bos rest :
    matches Bos 0 [] rest
| M_Eos pos :
    matches Eos pos [] [].

(** [re.test(text)] for a regular expression that is not global. *)
Definition test (re : RegExp) (text : jsstring) : bool :=
  truthy (fst (String_match text re 0)).

(** The three policies, and the one a list of options selects. *)
Inductive Policy : Type := Always | Never | Unspecified.

Definition policyOf (options : list string) : Policy :=
  if hasOption options OPTION_ALWAYS then Always
  else if hasOption options OPTION_NEVER then Never
  else Unspecified.

(** "[{] then whitespace-or-newline then any content then
    whitespace-or-newline then [}]". *)
Definition spacedShape (text : jsstring) : Prop :=
  exists a content b,
    text = LBRACE :: a :: content ++ [b; RBRACE]
    /\ isWhiteSpace a = true /\ isWhiteSpace b = true.

(** "newline+indentation", and an optional one. *)
Definition newlineIndent (l : jsstring) : Prop :=
  exists indent, l = LF :: indent /\ forallb isWhiteSpace indent = true.

Definition optNewlineIndent (l : jsstring) : Prop :=
  l = [] \/ newlineIndent l.

(** "stripping at most one optional leading newline+indentation and at
    most one optional trailing newline+indentation, the remaining
    interior's first and last characters are both non-whitespace". *)
Definition spacelessShape (text : jsstring) : Prop :=
  exists lead interior trail,
    text = LBRACE :: lead ++ interior ++ trail ++ [RBRACE]
    /\ optNewlineIndent lead /\ optNewlineIndent trail
    /\ (exists c, hd_error interior = Some c /\ isWhiteSpace c = false)
    /\ (exists d, hd_error (rev interior) = Some d /\ isWhiteSpace d = false).

(** The same with an interior of at least two characters, which is what
    [spacelessBracesRegex] accepts. *)
Definition spacelessShape2 (text : jsstring) : Prop :=
  exists lead c content d trail,
    text = LBRACE :: lead ++ (c :: content ++ [d]) ++ trail ++ [RBRACE]
    /\ optNewlineIndent lead /\ optNewlineIndent trail
    /\ isWhiteSpace c = false /\ isWhiteSpace d = false.

(** The degenerate texts the parser produces around spread attributes. *)
Definition degenerate (text : jsstring) : Prop :=
  text = lit "{" \/ text = lit "{..." \/ text = lit "{ ...".

(** The brace-interior spacing of [text] matches the policy. *)
Definition conforms (p : Policy) (text : jsstring) : Prop :=
  match p with
  | Always => spacedShape text
  | Never => spacelessShape text
  | Unspecified => True
  end.

(** [m] occurs in [text] at index [n]. *)
Definition occursAt (text m : jsstring) (n : nat) : Prop :=
  slice text n (n + List.length m) = m.

(** A visitor method [h] (applied to its node, waiting for its [super]
    call) emits exactly [found]: whatever the state and whatever [super]
    does, [h] hands exactly the failures [found] to [addFailure], in this
    order, leaves the rest of the state alone and then runs [super]. *)
Definition emit (found : list RuleFailure) (st : WalkerState) : WalkerState :=
  mkState (failures st ++ found) (spreadLastIndex st).

Definition emits (h : Walker unit -> Walker unit) (found : list RuleFailure) : Prop :=
  forall super st, h super st = super (emit found st).

Definition silent (h : Walker unit -> Walker unit) : Prop := emits h [].

Definition reports (h : Walker unit -> Walker unit) : Prop :=
  exists f, emits h [f].

(** The failures the walker creates, as a function of the tree. *)
Section Failures.
Variable options : list string.
Variable sourceFile : jsstring.

Definition messageFor (start width : Z) : list RuleFailure :=
  if hasOption options OPTION_ALWAYS
  then [createFailure start width ALWAYS_FAILURE_STRING]
  else if hasOption options OPTION_NEVER
       then [createFailure start width NEVER_FAILURE_STRING]
       else [].

Definition expressionFailures (node : Node) : list RuleFailure :=
  let text := getText sourceFile node in
  if negb (isSkippableExpression text) && negb (isValidExpression options text)
  then messageFor (getStart node) (getWidth node)
  else [].

Definition spreadFailure (node : Node) (m : jsstring) : list RuleFailure :=
  if negb (isValidExpression options m)
  then messageFor (getStart node + indexOf (getText sourceFile node) m)
                  (Z.of_nat (List.length m))
  else [].

Definition spreadFailures (node : Node) : list RuleFailure :=
  flat_map (spreadFailure node) (matchAll spreadRegEx (getText sourceFile node)).

Definition ownFailures (node : Node) : list RuleFailure :=
  match kind node with
  | JsxElement | JsxSelfClosingElement => spreadFailures node
  | JsxExpression => expressionFailures node
  | JsxAttribute | OtherKind => []
  end.

Fixpoint treeFailures (n : Node) : list RuleFailure :=
  match n with
  | mkNode _ _ _ cs =>
      ownFailures n
      ++ (fix go (cs : list Node) : list RuleFailure :=
            match cs with
            | [] => []
            | c :: cs' => treeFailures c ++ go cs'
            end) cs
  end.

End Failures.

(** The [lastIndex] of [spreadRegEx] after a walk: every element node
    runs a global match, which leaves it at 0. *)
Fixpoint lastIndexAfter (n : Node) (lastIndex : nat) : nat :=
  match n with
  | mkNode k _ _ cs =>
      (fix go (cs : list Node) (li : nat) : nat :=
         match cs with
         | [] => li
         | c :: cs' => go cs' (lastIndexAfter c li)
         end) cs
        (match k with
         | JsxElement | JsxSelfClosingElement => 0
         | JsxExpression | JsxAttribute | OtherKind => lastIndex
         end)
  end.

Definition childrenLastIndex (cs : list Node) (lastIndex : nat) : nat :=
  fold_left (fun li c => lastIndexAfter c li) cs lastIndex.

(** The children walk of [visitNode], named. *)
Definition walkChildren (v : Visitor) (cs : list Node) : Walker unit :=
  (fix go (cs : list Node) : Walker unit :=
     match cs with
     | [] => ret tt
     | c :: cs' => bind (visitNode v c) (fun _ => go cs')
     end) cs.

Definition childrenFailures (options : list string) (sourceFile : jsstring)
           (cs : list Node) : list RuleFailure :=
  flat_map (treeFailures options sourceFile) cs.

(** The walk of [n] completes, whatever the state it starts in, and
    hands [treeFailures n] to [addFailure]. *)
Definition runs (options : list string) (sourceFile : jsstring) (n : Node) : Prop :=
  forall fs li,
    visitNode (JsxCurlySpacingWalker options sourceFile) n (mkState fs li)
    = Ok tt (mkState (fs ++ treeFailures options sourceFile n)
                     (lastIndexAfter n li)).

End Spec.

(* ===================================================================== *)
(** * Spread texts and match positions                                    *)
(* ===================================================================== *)

Module SpecExt.
Import JS Host Rule Spec.

(** The text of a spread attribute, read off [spreadRegEx]: an opening
    brace, whitespace, three dots, a path of word characters and dots,
    whitespace, a closing brace. *)
Definition spreadShape (m : jsstring) : Prop :=
  exists ws1 path ws2,
    m = LBRACE :: ws1 ++ [DOT; DOT; DOT] ++ path ++ ws2 ++ [RBRACE]
    /\ forallb isWhiteSpace ws1 = true
    /\ forallb wordOrDot path = true
    /\ forallb isWhiteSpace ws2 = true.

(** [m] occurs somewhere in [text]. *)
Definition occursIn (text m : jsstring) : Prop :=
  exists pre post, text = pre ++ m ++ post.

(** [RegExp.prototype.exec] again, keeping the [index] property of the
    result array: the start and the end of the match instead of the
    matched text.  [exec] is [execAt] followed by [slice]
    ([exec_execAt]). *)
Definition execAt (re : RegExp) (lastIndex : nat) (text : jsstring)
  : option (nat * nat) * nat :=
  let i := if global re then lastIndex else 0 in
  if Nat.ltb (List.length text) i then (None, 0)
  else
    match search (source re) i (skipn i text) with
    | None => (None, 0)
    | Some (b, e) => (Some (b, e), if global re then e else lastIndex)
    end.

(** The loop of [String.prototype.match], collecting positions. *)
Fixpoint matchLoopAt (fuel : nat) (re : RegExp) (text : jsstring)
         (lastIndex previousLastIndex : nat) (A : list (nat * nat))
  : option (list (nat * nat)) :=
  match fuel with
  | O => None
  | S fuel' =>
      match execAt re lastIndex text with
      | (None, _) => Some A
      | (Some span, thisIndex) =>
          if Nat.eqb thisIndex previousLastIndex
          then matchLoopAt fuel' re text (thisIndex + 1) (thisIndex + 1) (A ++ [span])
          else matchLoopAt fuel' re text thisIndex thisIndex (A ++ [span])
      end
  end.

(** Where the elements of [matchAll re text] were matched
    ([matchAll_matchSpans]). *)
Definition matchSpans (re : RegExp) (text : jsstring) : list (nat * nat) :=
  match matchLoopAt (S (S (List.length text))) re text 0 0 [] with
  | Some A => A
  | None => []
  end.

(** The pattern of [re] matches at index [q] of [text]. *)
Definition matchesAt (re : RegExp) (text : jsstring) (q : nat) : Prop :=
  rmatch (source re) q (skipn q text) (fun e _ => Some e) <> None.

(** Index [q] lies inside one of the spans. *)
Definition covered (A : list (nat * nat)) (q : nat) : Prop :=
  exists b e, In (b, e) A /\ b <= q < e.

(** Every span is a match, and every index before it at which the
    pattern matches lies inside an earlier span. *)
Definition leftmost (re : RegExp) (text : jsstring) (A : list (nat * nat)) : Prop :=
  forall A1 b e A2,
    A = A1 ++ (b, e) :: A2 ->
    b <= e /\ e <= List.length text
    /\ rmatch (source re) b (skipn b text) (fun e _ => Some e) = Some e
    /\ forall q, q < b -> matchesAt re text q -> covered A1 q.

Definition spanText (text : jsstring) (span : nat * nat) : jsstring :=
  slice text (fst span) (snd span).

(** The failures of the spread handler when every match is reported at
    its own position. *)
Definition spanFailure (options : list string) (node : Node) (text : jsstring)
           (span : nat * nat) : list RuleFailure :=
  if negb (isValidExpression options (spanText text span))
  then messageFor options (getStart node + Z.of_nat (fst span))
                  (Z.of_nat (snd span - fst span))
  else [].

(** The walk of [n] completes, whatever the state it starts in, and makes
    exactly the calls [calls] to [addFailure], in this order. *)
Definition hands (options : list string) (sourceFile : jsstring)
           (n : Node) (calls : list RuleFailure) : Prop :=
  forall st,
  exists st',
    visitNode (JsxCurlySpacingWalker options sourceFile) n st = Ok tt st'
    /\ failures st' = failures st ++ calls.

End SpecExt.

(* ===================================================================== *)
(** * The matcher against the declarative reading                         *)
(* ===================================================================== *)

Module MatcherFacts.
Import JS Spec.

Lemma orElse_Some a b e :
  orElse a b = Some e -> a = Some e \/ (a = None /\ b tt = Some e).
Proof. destruct a; simpl; intros H; [left | right]; auto. Qed.

Lemma orElse_left a b : a <> None -> orElse a b <> None.
Proof. destruct a; simpl; congruence. Qed.

Lemma orElse_right a b : b tt <> None -> orElse a b <> None.
Proof. destruct a; simpl; congruence. Qed.

(** Greedy and lazy stars succeed with a result only through their
    continuation, after consuming a run of characters of the class. *)
Lemma star_greedy_sound p k s : forall pos e,
  star_greedy p k pos s = Some e ->
  exists s1 s2, s = s1 ++ s2 /\ forallb p s1 = true
                /\ k (pos + List.length s1) s2 = Some e.
Proof.
  induction s as [|c s IH]; intros pos e H; simpl in H.
  - exists [], []. rewrite Nat.add_0_r. auto.
  - destruct (p c) eqn:Hc.
    + apply orElse_Some in H. destruct H as [H | [_ H]].
      * apply IH in H. destruct H as (s1 & s2 & -> & Hs1 & Hk).
        exists (c :: s1), s2. simpl. rewrite Hc, Hs1.
        replace (pos + S (List.length s1)) with (S pos + List.length s1) by lia.
        auto.
      * exists [], (c :: s). rewrite Nat.add_0_r. auto.
    + exists [], (c :: s). rewrite Nat.add_0_r. auto.
Qed.

Lemma star_greedy_complete p k s1 : forall s2 pos,
  forallb p s1 = true ->
  k (pos + List.length s1) s2 <> None ->
  star_greedy p k pos (s1 ++ s2) <> None.
Proof.
  induction s1 as [|c s1 IH]; intros s2 pos Hp Hk; simpl in *.
  - rewrite Nat.add_0_r in Hk.
    destruct s2 as [|d s2]; simpl; auto.
    destruct (p d); auto. apply orElse_right; auto.
  - apply andb_prop in Hp. destruct Hp as [Hc Hp]. rewrite Hc.
    apply orElse_left. apply IH; auto.
    replace (S pos + List.length s1) with (pos + S (List.length s1)) by lia.
    exact Hk.
Qed.

Lemma star_lazy_sound p k s : forall pos e,
  star_lazy p k pos s = Some e ->
  exists s1 s2, s = s1 ++ s2 /\ forallb p s1 = true
                /\ k (pos + List.length s1) s2 = Some e.
Proof.
  induction s as [|c s IH]; intros pos e H; simpl in H;
    apply orElse_Some in H; destruct H as [H | [_ H]]; try discriminate.
  - exists [], []. rewrite Nat.add_0_r. auto.
  - exists [], (c :: s). rewrite Nat.add_0_r. auto.
  - destruct (p c) eqn:Hc; try discriminate.
    apply IH in H. destruct H as (s1 & s2 & -> & Hs1 & Hk).
    exists (c :: s1), s2. simpl. rewrite Hc, Hs1.
    replace (pos + S (List.length s1)) with (S pos + List.length s1) by lia.
    auto.
Qed.

Lemma star_lazy_complete p k s1 : forall s2 pos,
  forallb p s1 = true ->
  k (pos + List.length s1) s2 <> None ->
  star_lazy p k pos (s1 ++ s2) <> None.
Proof.
  induction s1 as [|c s1 IH]; intros s2 pos Hp Hk; simpl in *.
  - rewrite Nat.add_0_r in Hk.
    destruct s2 as [|d s2]; simpl; apply orElse_left; auto.
  - apply andb_prop in Hp. destruct Hp as [Hc Hp].
    apply orElse_right. rewrite Hc. apply IH; auto.
    replace (S pos + List.length s1) with (pos + S (List.length s1)) by lia.
    exact Hk.
Qed.

(** Soundness: a result of the matcher is a result of its continuation
    after a string the pattern matches. *)
Lemma rmatch_sound r : forall pos s k e,
  rmatch r pos s k = Some e ->
  exists s1 s2, s = s1 ++ s2 /\ matches r pos s1 s2
                /\ k (pos + List.length s1) s2 = Some e.
Proof.
  induction r as [p | r1 IH1 r2 IH2 | r1 IH1 r2 IH2 | r IH | p | p | | ];
    intros pos s k e H; simpl in H.
  - destruct s as [|c s]; try discriminate.
    destruct (p c) eqn:Hc; try discriminate.
    exists [c], s. simpl. replace (pos + 1) with (S pos) by lia.
    repeat split; auto. constructor; auto.
  - apply IH1 in H. destruct H as (s1 & s' & -> & M1 & H).
    apply IH2 in H. destruct H as (s2 & s3 & -> & M2 & H).
    exists (s1 ++ s2), s3. rewrite <- app_assoc. repeat split.
    + constructor; auto.
    + rewrite length_app, Nat.add_assoc. exact H.
  - apply orElse_Some in H. destruct H as [H | [_ H]].
    + apply IH1 in H. destruct H as (s1 & s2 & -> & M & H).
      exists s1, s2. repeat split; auto. apply M_AltL; auto.
    + apply IH2 in H. destruct H as (s1 & s2 & -> & M & H).
      exists s1, s2. repeat split; auto. apply M_AltR; auto.
  - apply orElse_Some in H. destruct H as [H | [_ H]].
    + apply IH in H. destruct H as (s1 & s2 & -> & M & H).
      destruct (Nat.eqb (pos + List.length s1) pos) eqn:E; try discriminate.
      apply Nat.eqb_neq in E.
      exists s1, s2. repeat split; auto. apply M_OptSome; auto.
      intros ->. simpl in E. lia.
    + exists [], s. rewrite Nat.add_0_r. repeat split; auto. constructor.
  - apply star_greedy_sound in H. destruct H as (s1 & s2 & -> & Hp & H).
    exists s1, s2. repeat split; auto. constructor; auto.
  - apply star_lazy_sound in H. destruct H as (s1 & s2 & -> & Hp & H).
    exists s1, s2. repeat split; auto. constructor; auto.
  - destruct (Nat.eqb pos 0) eqn:E; try discriminate.
    apply Nat.eqb_eq in E. subst pos.
    exists [], s. repeat split; auto. constructor.
  - destruct s; try discriminate.
    exists [], []. rewrite Nat.add_0_r. repeat split; auto. constructor.
Qed.

(** Completeness: when the pattern matches a prefix after which the
    continuation succeeds, the matcher succeeds. *)
Lemma rmatch_complete r pos s1 s2 :
  matches r pos s1 s2 ->
  forall k, k (pos + List.length s1) s2 <> None ->
            rmatch r pos (s1 ++ s2) k <> None.
Proof.
  induction 1 as [p c pos rest Hc
                 | r1 r2 pos s1 s2 rest M1 IH1 M2 IH2
                 | r1 r2 pos s rest M IH
                 | r1 r2 pos s rest M IH
                 | r pos rest
                 | r pos s rest M IH Hne
                 | p pos s rest Hp
                 | p pos s rest Hp
                 | rest
                 | pos]; intros k Hk; simpl.
  - rewrite Hc. simpl in Hk. replace (S pos) with (pos + 1) by lia. exact Hk.
  - rewrite <- app_assoc. apply IH1. apply IH2.
    rewrite length_app, Nat.add_assoc in Hk. exact Hk.
  - apply orElse_left. apply IH. exact Hk.
  - apply orElse_right. apply IH. exact Hk.
  - apply orElse_right. rewrite Nat.add_0_r in Hk. exact Hk.
  - apply orElse_left. apply IH.
    destruct (Nat.eqb (pos + List.length s) pos) eqn:E; auto.
    apply Nat.eqb_eq in E. destruct s; [congruence | simpl in E; lia].
  - apply star_greedy_complete; auto.
  - apply star_lazy_complete; auto.
  - exact Hk.
  - rewrite Nat.add_0_r in Hk. exact Hk.
Qed.

Lemma rmatch_success r pos s :
  rmatch r pos s (fun e _ => Some e) <> None
  <-> exists s1 s2, s = s1 ++ s2 /\ matches r pos s1 s2.
Proof.
  split.
  - destruct (rmatch r pos s (fun e _ => Some e)) as [e|] eqn:H; try congruence.
    intros _. apply rmatch_sound in H. destruct H as (s1 & s2 & ? & ? & _).
    eauto.
  - intros (s1 & s2 & -> & M). apply rmatch_complete; auto. discriminate.
Qed.

(** A pattern anchored with [^] matches at index 0 only. *)
Lemma search_anchored r s : forall i,
  search (Seq Bos r) (S i) s = None.
Proof.
  induction s as [|c s IH]; intros i; simpl; auto.
Qed.

Lemma test_anchored r text :
  test (mkRegExp (Seq Bos r) false) text = true
  <-> exists s1 s2, text = s1 ++ s2 /\ matches r 0 s1 s2.
Proof.
  unfold test, String_match, exec. simpl.
  change (rmatch Bos 0 text
            (fun pos' s' => rmatch r pos' s' (fun e _ => Some e)))
    with (rmatch r 0 text (fun e _ => Some e)).
  destruct (rmatch r 0 text (fun e _ => Some e)) as [e|] eqn:H.
  - destruct text; simpl; rewrite ?H; simpl; split; auto; intros _;
      apply rmatch_success; rewrite H; discriminate.
  - assert (N : ~ exists s1 s2, text = s1 ++ s2 /\ matches r 0 s1 s2).
    { intros X. apply rmatch_success in X. congruence. }
    destruct text as [|c text]; simpl; rewrite ?H.
    + simpl. split; [discriminate | intros X; contradiction].
    + rewrite search_anchored. simpl.
      split; [discriminate | intros X; contradiction].
Qed.

End MatcherFacts.

(* ===================================================================== *)
(** * What the three patterns accept                                      *)
(* ===================================================================== *)

Module PatternFacts.
Import JS Host Rule Spec MatcherFacts.

Lemma isChar_eq x c : isChar x c = true -> c = x.
Proof. unfold isChar. apply N.eqb_eq. Qed.

Lemma isChar_refl x : isChar x x = true.
Proof. unfold isChar. apply N.eqb_refl. Qed.

Lemma anyChar_true c : anyChar c = true.
Proof. unfold anyChar, notWhiteSpace. destruct (isWhiteSpace c); reflexivity. Qed.

Lemma forallb_anyChar s : forallb anyChar s = true.
Proof. induction s; simpl; auto. rewrite anyChar_true. auto. Qed.

Lemma notWhiteSpace_false c : notWhiteSpace c = true <-> isWhiteSpace c = false.
Proof. unfold notWhiteSpace. destruct (isWhiteSpace c); simpl; split; congruence. Qed.

Lemma last_of_run (p : code_unit -> bool) l :
  l <> [] -> forallb p l = true ->
  exists init b, l = init ++ [b] /\ p b = true.
Proof.
  intros Hne Hp. destruct (exists_last Hne) as (init & b & ->).
  exists init, b. split; auto.
  rewrite forallb_app in Hp. apply andb_prop in Hp. destruct Hp as [_ Hb].
  simpl in Hb. rewrite andb_true_r in Hb. exact Hb.
Qed.

(** Inversion of a derivation on a pattern whose head constructor is
    known; alternatives and optional groups are left to the caller. *)
Ltac inv_matches :=
  repeat match goal with
         | H : matches (Seq _ _) _ _ _ |- _ => inversion H; clear H; subst
         | H : matches (Chr _) _ _ _ |- _ => inversion H; clear H; subst
         | H : matches (Star _) _ _ _ |- _ => inversion H; clear H; subst
         | H : matches (StarLazy _) _ _ _ |- _ => inversion H; clear H; subst
         | H : matches Eos _ _ _ |- _ => inversion H; clear H; subst
         | H : isChar _ _ = true |- _ => apply isChar_eq in H; subst
         end.

(** [\n\s*], and the optional group around it. *)
Lemma matches_newlineIndent pos s rest :
  matches (Chr (isChar LF) @@ Star isWhiteSpace) pos s rest <-> newlineIndent s.
Proof.
  split.
  - intros M. inv_matches. exists s2. auto.
  - intros (indent & -> & Hi).
    change (LF :: indent) with ([LF] ++ indent).
    apply M_Seq; constructor; auto using isChar_refl.
Qed.

Lemma matches_optNewlineIndent pos s rest :
  matches (Opt (Chr (isChar LF) @@ Star isWhiteSpace)) pos s rest
  <-> optNewlineIndent s.
Proof.
  split.
  - intros M. inversion M; subst.
    + left; auto.
    + right. eapply matches_newlineIndent; eauto.
  - intros [-> | H].
    + constructor.
    + apply M_OptSome.
      * apply matches_newlineIndent; auto.
      * destruct H as (i & -> & _). discriminate.
Qed.

Lemma spacedShape_intro a content tail :
  isWhiteSpace a = true -> tail <> [] -> forallb isWhiteSpace tail = true ->
  spacedShape ([LBRACE] ++ [a] ++ content ++ tail ++ [RBRACE]).
Proof.
  intros Ha Hne Ht.
  destruct (last_of_run isWhiteSpace Hne Ht) as (init & b & -> & Hb).
  exists a, (content ++ init), b.
  rewrite <- !app_assoc. simpl. auto.
Qed.

(** [spacedBracesRegex] accepts exactly the texts with one whitespace
    character after the opening brace and one before the closing brace. *)
Lemma spacedBracesRegex_shape text :
  test spacedBracesRegex text = true <-> spacedShape text.
Proof.
  unfold spacedBracesRegex. rewrite test_anchored. split.
  - intros (s1 & s2 & -> & M). inv_matches.
    repeat match goal with
           | H : matches (Alt _ _) _ _ _ |- _ => inversion H; clear H; subst
           end; inv_matches.
    all: rewrite app_nil_r.
    all: apply spacedShape_intro.
    all: try assumption; try discriminate.
    all: try (simpl; rewrite andb_true_r; assumption).
    all: reflexivity.
  - intros (a & content & b & -> & Ha & Hb).
    exists (LBRACE :: a :: content ++ [b; RBRACE]), []. split.
    { rewrite app_nil_r. reflexivity. }
    change (LBRACE :: a :: content ++ [b; RBRACE])
      with ([LBRACE] ++ [a] ++ content ++ [b] ++ [RBRACE] ++ []).
    repeat (apply M_Seq).
    + constructor. apply isChar_refl.
    + apply M_AltL. constructor. exact Ha.
    + constructor. apply forallb_anyChar.
    + apply M_AltL. constructor. exact Hb.
    + constructor. apply isChar_refl.
    + constructor.
Qed.

Lemma spacelessShape2_intro lead c content d trail :
  optNewlineIndent lead -> optNewlineIndent trail ->
  isWhiteSpace c = false -> isWhiteSpace d = false ->
  spacelessShape2 ([LBRACE] ++ (lead ++ [c] ++ content) ++ [d] ++ trail ++ [RBRACE]).
Proof.
  intros Hl Ht Hc Hd. exists lead, c, content, d, trail.
  repeat split; auto.
  simpl. rewrite <- !app_assoc. reflexivity.
Qed.

(** [spacelessBracesRegex] accepts exactly the texts whose interior, apart
    from an optional newline and indentation on either side, starts and
    ends with a non-whitespace character and has two characters or
    more. *)
Lemma spacelessBracesRegex_shape text :
  test spacelessBracesRegex text = true <-> spacelessShape2 text.
Proof.
  unfold spacelessBracesRegex. rewrite test_anchored. split.
  - intros (s1 & s2 & -> & M). inv_matches.
    rewrite !app_nil_r.
    repeat match goal with
           | H : matches (Opt _) _ _ _ |- _ => apply matches_optNewlineIndent in H
           | H : notWhiteSpace _ = true |- _ => apply notWhiteSpace_false in H
           end.
    apply spacelessShape2_intro; assumption.
  - intros (lead & c & content & d & trail & -> & Hl & Ht & Hc & Hd).
    exists (LBRACE :: lead ++ (c :: content ++ [d]) ++ trail ++ [RBRACE]), [].
    split.
    { rewrite app_nil_r. reflexivity. }
    replace (LBRACE :: lead ++ (c :: content ++ [d]) ++ trail ++ [RBRACE])
      with (([LBRACE] ++ (lead ++ [c] ++ content) ++ [d] ++ trail ++ [RBRACE]) ++ []).
    2:{ rewrite app_nil_r. simpl. rewrite <- !app_assoc. reflexivity. }
    repeat (apply M_Seq).
    + constructor. apply isChar_refl.
    + apply matches_optNewlineIndent. exact Hl.
    + constructor. apply notWhiteSpace_false. exact Hc.
    + constructor. apply forallb_anyChar.
    + constructor. apply notWhiteSpace_false. exact Hd.
    + apply matches_optNewlineIndent. exact Ht.
    + constructor. apply isChar_refl.
    + constructor.
Qed.

Lemma spacelessShape2_length text :
  spacelessShape2 text -> 4 <= List.length text.
Proof.
  intros (lead & c & content & d & trail & -> & _).
  simpl. rewrite !length_app. simpl. rewrite !length_app. simpl. lia.
Qed.

Lemma spacelessShape2_spacelessShape text :
  spacelessShape2 text -> spacelessShape text.
Proof.
  intros (lead & c & content & d & trail & -> & Hl & Ht & Hc & Hd).
  exists lead, (c :: content ++ [d]), trail. repeat split; auto.
  - exists c. auto.
  - exists d. split; auto.
    change (c :: content ++ [d]) with ((c :: content) ++ [d]).
    rewrite rev_app_distr. reflexivity.
Qed.

End PatternFacts.

(* ===================================================================== *)
(** * The expression-container check                                      *)
(* ===================================================================== *)

Module ExpressionFacts.
Import JS Host Rule Spec MatcherFacts PatternFacts.

Lemma jsstring_eqb_eq a : forall b, jsstring_eqb a b = true <-> a = b.
Proof.
  induction a as [|x a IH]; intros [|y b]; simpl; split; intros H;
    try discriminate; auto.
  - apply andb_prop in H. destruct H as [Hx Hab].
    apply N.eqb_eq in Hx. apply IH in Hab. congruence.
  - injection H as -> ->. rewrite N.eqb_refl. simpl. apply IH. reflexivity.
Qed.

Lemma Array_indexOf_from_absent arr x : forall k,
  (0 <= k)%Z ->
  (Array_indexOf_from arr x k = -1)%Z <-> ~ In x arr.
Proof.
  induction arr as [|y arr IH]; intros k Hk; simpl.
  - tauto.
  - destruct (jsstring_eqb y x) eqn:E.
    + apply jsstring_eqb_eq in E. split; [lia | tauto].
    + rewrite IH by lia.
      assert (y <> x) by (intros X; apply jsstring_eqb_eq in X; congruence).
      tauto.
Qed.

Lemma isSkippableExpression_degenerate text :
  isSkippableExpression text = true <-> degenerate text.
Proof.
  unfold isSkippableExpression, Array_indexOf, degenerate.
  rewrite negb_true_iff, Z.eqb_neq, Array_indexOf_from_absent by lia.
  cbn [In]. split.
  - intros H.
    destruct (list_eq_dec N.eq_dec text (lit "{")) as [?|N1]; auto.
    destruct (list_eq_dec N.eq_dec text (lit "{...")) as [?|N2]; auto.
    destruct (list_eq_dec N.eq_dec text (lit "{ ...")) as [?|N3]; auto.
    exfalso. apply H. intros [X | [X | [X | []]]]; congruence.
  - intros [-> | [-> | ->]] H; apply H; auto.
Qed.

(** The policy a list of options selects, in terms of [hasOption]. *)
Lemma policyOf_Always options :
  policyOf options = Always <-> hasOption options OPTION_ALWAYS = true.
Proof.
  unfold policyOf. destruct (hasOption options OPTION_ALWAYS);
    [|destruct (hasOption options OPTION_NEVER)]; split; congruence.
Qed.

Lemma policyOf_Never options :
  policyOf options = Never
  <-> hasOption options OPTION_ALWAYS = false
      /\ hasOption options OPTION_NEVER = true.
Proof.
  unfold policyOf. destruct (hasOption options OPTION_ALWAYS);
    [|destruct (hasOption options OPTION_NEVER)]; split;
    try congruence; try tauto; intros [? ?]; congruence.
Qed.

Lemma policyOf_Unspecified options :
  policyOf options = Unspecified
  <-> hasOption options OPTION_ALWAYS = false
      /\ hasOption options OPTION_NEVER = false.
Proof.
  unfold policyOf. destruct (hasOption options OPTION_ALWAYS);
    [|destruct (hasOption options OPTION_NEVER)]; split;
    try congruence; try tauto; intros [? ?]; congruence.
Qed.

(** [isValidExpression] under each policy. *)
Lemma isValidExpression_policy options text :
  isValidExpression options text =
  match policyOf options with
  | Always => test spacedBracesRegex text
  | Never => test spacelessBracesRegex text
  | Unspecified => true
  end.
Proof.
  unfold isValidExpression, policyOf, test.
  destruct (hasOption options OPTION_ALWAYS);
    [|destruct (hasOption options OPTION_NEVER)]; reflexivity.
Qed.

Lemma messageFor_policy options start width :
  messageFor options start width =
  match policyOf options with
  | Always => [createFailure start width ALWAYS_FAILURE_STRING]
  | Never => [createFailure start width NEVER_FAILURE_STRING]
  | Unspecified => []
  end.
Proof.
  unfold messageFor, policyOf.
  destruct (hasOption options OPTION_ALWAYS);
    [|destruct (hasOption options OPTION_NEVER)]; reflexivity.
Qed.

Lemma emit_nil st : emit [] st = st.
Proof. destruct st. unfold emit. simpl. rewrite app_nil_r. reflexivity. Qed.

Lemma emit_emit f g st : emit g (emit f st) = emit (f ++ g) st.
Proof. unfold emit. simpl. rewrite app_assoc. reflexivity. Qed.

(** A method emits one list of failures only. *)
Lemma emits_unique h f g : emits h f -> emits h g -> f = g.
Proof.
  intros Hf Hg.
  specialize (Hf (@ret unit tt) (mkState [] 0)).
  specialize (Hg (@ret unit tt) (mkState [] 0)).
  rewrite Hf in Hg. unfold ret, emit in Hg. simpl in Hg.
  injection Hg. auto.
Qed.

Lemma silent_not_reports h : silent h -> ~ reports h.
Proof.
  intros Hs (f & Hf). pose proof (emits_unique Hs Hf). discriminate.
Qed.

(** [visitJsxExpression] emits [expressionFailures] and calls [super]. *)
Lemma visitJsxExpression_emits options sourceFile node :
  emits (visitJsxExpression options sourceFile node)
        (expressionFailures options sourceFile node).
Proof.
  intros super st.
  unfold visitJsxExpression, expressionFailures, messageFor, bind.
  destruct (negb (isSkippableExpression (getText sourceFile node))
            && negb (isValidExpression options (getText sourceFile node))).
  - destruct (hasOption options OPTION_ALWAYS);
      [|destruct (hasOption options OPTION_NEVER)];
      simpl; rewrite ?emit_nil; reflexivity.
  - simpl. rewrite emit_nil. reflexivity.
Qed.

Lemma expressionFailures_policy options sourceFile node :
  expressionFailures options sourceFile node =
  let text := getText sourceFile node in
  match policyOf options with
  | Always =>
      if negb (isSkippableExpression text) && negb (test spacedBracesRegex text)
      then [createFailure (getStart node) (getWidth node) ALWAYS_FAILURE_STRING]
      else []
  | Never =>
      if negb (isSkippableExpression text) && negb (test spacelessBracesRegex text)
      then [createFailure (getStart node) (getWidth node) NEVER_FAILURE_STRING]
      else []
  | Unspecified => []
  end.
Proof.
  unfold expressionFailures.
  rewrite isValidExpression_policy, messageFor_policy.
  destruct (policyOf options); cbv zeta; try reflexivity.
  rewrite andb_false_r. reflexivity.
Qed.

Lemma spacedShape_length text : spacedShape text -> 4 <= List.length text.
Proof.
  intros (a & content & b & -> & _). simpl. rewrite length_app. simpl. lia.
Qed.

End ExpressionFacts.

(* ===================================================================== *)
(** * Expression containers: findings by policy                           *)
(* ===================================================================== *)

Module ExpressionClaims.
Import JS Host Rule Spec MatcherFacts PatternFacts ExpressionFacts.

Lemma emits_expression_iff options sourceFile node found :
  emits (visitJsxExpression options sourceFile node) found
  <-> found = expressionFailures options sourceFile node.
Proof.
  split.
  - intros H. eapply emits_unique; eauto. apply visitJsxExpression_emits.
  - intros ->. apply visitJsxExpression_emits.
Qed.

(** When an expression container is reported, in terms of the shapes. *)
Lemma reports_expression_iff options sourceFile node :
  reports (visitJsxExpression options sourceFile node)
  <-> ~ degenerate (getText sourceFile node)
      /\ match policyOf options with
         | Always => ~ spacedShape (getText sourceFile node)
         | Never => ~ spacelessShape2 (getText sourceFile node)
         | Unspecified => False
         end.
Proof.
  pose proof (expressionFailures_policy options sourceFile node) as E.
  cbv zeta in E.
  pose proof (isSkippableExpression_degenerate (getText sourceFile node)) as Hd.
  pose proof (spacedBracesRegex_shape (getText sourceFile node)) as Hs.
  pose proof (spacelessBracesRegex_shape (getText sourceFile node)) as Hn.
  unfold reports. split.
  - intros (f & Hf). apply emits_expression_iff in Hf. rewrite E in Hf.
    destruct (policyOf options); try discriminate;
      destruct (isSkippableExpression (getText sourceFile node));
      simpl in Hf; try discriminate.
    + destruct (test spacedBracesRegex (getText sourceFile node));
        simpl in Hf; try discriminate.
      split; intros X; [apply Hd in X | apply Hs in X]; discriminate.
    + destruct (test spacelessBracesRegex (getText sourceFile node));
        simpl in Hf; try discriminate.
      split; intros X; [apply Hd in X | apply Hn in X]; discriminate.
  - intros [Nd Np].
    destruct (policyOf options); [| |contradiction].
    + destruct (isSkippableExpression (getText sourceFile node));
        [exfalso; tauto|].
      destruct (test spacedBracesRegex (getText sourceFile node));
        [exfalso; tauto|].
      eexists. apply emits_expression_iff. rewrite E. reflexivity.
    + destruct (isSkippableExpression (getText sourceFile node));
        [exfalso; tauto|].
      destruct (test spacelessBracesRegex (getText sourceFile node));
        [exfalso; tauto|].
      eexists. apply emits_expression_iff. rewrite E. reflexivity.
Qed.

(** C1, and the input at which the code breaks it.  With neither option
    no text produces a finding.  For a text that is not one of the three
    degenerate texts and, under [Never], whose interior has two characters
    or more, a finding is emitted if and only if the spacing does not
    match the policy and the policy is not [Unspecified].  At the text
    "{f}" under [Never] the spacing matches the policy (no whitespace
    inside the braces) and a finding is emitted all the same:
    [spacelessBracesRegex] rejects every interior of one character. *)
Theorem expression_finding_iff_but_single_character :
  (forall options sourceFile node,
      policyOf options = Unspecified ->
      silent (visitJsxExpression options sourceFile node))
  /\ (forall options sourceFile node,
         ~ degenerate (getText sourceFile node) ->
         (policyOf options = Never ->
          spacelessShape (getText sourceFile node) ->
          spacelessShape2 (getText sourceFile node)) ->
         (reports (visitJsxExpression options sourceFile node)
          <-> ~ conforms (policyOf options) (getText sourceFile node)
              /\ policyOf options <> Unspecified))
  /\ (let options := ["never"%string] in
      let sourceFile := lit "{f}" in
      let node := mkNode JsxExpression 0 3 [] in
      policyOf options <> Unspecified
      /\ conforms (policyOf options) (getText sourceFile node)
      /\ emits (visitJsxExpression options sourceFile node)
               [createFailure 0 3 NEVER_FAILURE_STRING]).
Proof.
  split; [|split].
  - intros options sourceFile node P. apply emits_expression_iff.
    rewrite expressionFailures_policy, P. reflexivity.
  - intros options sourceFile node Nd H2.
    rewrite reports_expression_iff.
    destruct (policyOf options) eqn:P; simpl.
    + split; [intros [_ N]; split; [exact N | discriminate] | tauto].
    + split.
      * intros [_ N]. split; [|discriminate].
        intros X. apply N. apply H2; auto.
      * intros [N _]. split; [exact Nd|].
        intros X. apply N. apply spacelessShape2_spacelessShape. exact X.
    + split; [tauto | intros [_ N]; congruence].
  - intros options sourceFile node. split; [discriminate|]. split.
    + exists [], (lit "f"), []. repeat split.
      * left; reflexivity.
      * left; reflexivity.
      * exists 102%N. split; reflexivity.
      * exists 102%N. split; reflexivity.
    + apply emits_expression_iff. reflexivity.
Qed.

(** At "{foo}" under [Always] the equivalence holds. *)
Lemma expression_finding_iff_but_single_character_witness :
  reports (visitJsxExpression ["always"%string] (lit "{foo}")
                              (mkNode JsxExpression 0 5 []))
  <-> ~ conforms (policyOf ["always"%string])
                 (getText (lit "{foo}") (mkNode JsxExpression 0 5 []))
      /\ policyOf ["always"%string] <> Unspecified.
Proof.
  apply (proj1 (proj2 expression_finding_iff_but_single_character)
               ["always"%string] (lit "{foo}") (mkNode JsxExpression 0 5 [])).
  - intros [X | [X | X]]; discriminate.
  - intros X. discriminate X.
Defined.

(** C2.  Under [Always], a node whose text has the shape "{", whitespace,
    content, whitespace, "}" (such as "{ foo }") produces no finding, and a
    node whose text is "{foo}" produces exactly one finding, with the
    [Always] message, at the node's start and with the node's width. *)
Theorem always_spaced_silent_unspaced_reported options sourceFile node :
  policyOf options = Always ->
  let text := getText sourceFile node in
  let h := visitJsxExpression options sourceFile node in
  (spacedShape text -> silent h)
  /\ (text = lit "{ foo }" -> silent h)
  /\ (text = lit "{foo}" ->
      emits h [createFailure (getStart node) (getWidth node)
                             ALWAYS_FAILURE_STRING]).
Proof.
  intros P text h. subst h.
  pose proof (expressionFailures_policy options sourceFile node) as E.
  cbv zeta in E. fold text in E. rewrite P in E.
  assert (S : spacedShape text -> silent (visitJsxExpression options sourceFile node)).
  { intros H. apply emits_expression_iff. rewrite E.
    apply spacedBracesRegex_shape in H. rewrite H.
    rewrite andb_false_r. reflexivity. }
  split; [exact S|]. split.
  - intros T. apply S. rewrite T.
    exists SPACE, (lit "foo"), SPACE. repeat split.
  - intros T. apply emits_expression_iff. rewrite E, T. reflexivity.
Qed.

Lemma always_spaced_silent_unspaced_reported_witness :
  silent (visitJsxExpression ["always"%string] (lit "{ foo }")
                             (mkNode JsxExpression 0 7 []))
  /\ emits (visitJsxExpression ["always"%string] (lit "{foo}")
                               (mkNode JsxExpression 0 5 []))
           [createFailure 0 5 ALWAYS_FAILURE_STRING].
Proof.
  split.
  - apply (always_spaced_silent_unspaced_reported
             ["always"%string] (lit "{ foo }") (mkNode JsxExpression 0 7 [])
             eq_refl).
    reflexivity.
  - apply (always_spaced_silent_unspaced_reported
             ["always"%string] (lit "{foo}") (mkNode JsxExpression 0 5 [])
             eq_refl).
    reflexivity.
Defined.

(** C3.  Under [Never], a node whose text is "{foo}" produces no finding,
    and a node whose text is "{ foo }" produces exactly one finding, with
    the [Never] message. *)
Theorem never_unspaced_silent_spaced_reported options sourceFile node :
  policyOf options = Never ->
  let text := getText sourceFile node in
  let h := visitJsxExpression options sourceFile node in
  (text = lit "{foo}" -> silent h)
  /\ (text = lit "{ foo }" ->
      emits h [createFailure (getStart node) (getWidth node)
                             NEVER_FAILURE_STRING]).
Proof.
  intros P text h. subst h.
  pose proof (expressionFailures_policy options sourceFile node) as E.
  cbv zeta in E. fold text in E. rewrite P in E.
  split; intros T; apply emits_expression_iff; rewrite E, T; reflexivity.
Qed.

Lemma never_unspaced_silent_spaced_reported_witness :
  silent (visitJsxExpression ["never"%string] (lit "{foo}")
                             (mkNode JsxExpression 0 5 []))
  /\ emits (visitJsxExpression ["never"%string] (lit "{ foo }")
                               (mkNode JsxExpression 0 7 []))
           [createFailure 0 7 NEVER_FAILURE_STRING].
Proof.
  split.
  - apply (never_unspaced_silent_spaced_reported
             ["never"%string] (lit "{foo}") (mkNode JsxExpression 0 5 [])
             eq_refl).
    reflexivity.
  - apply (never_unspaced_silent_spaced_reported
             ["never"%string] (lit "{ foo }") (mkNode JsxExpression 0 7 [])
             eq_refl).
    reflexivity.
Defined.

(** C4 at its failing input.  The text "{f}" has the spaceless shape of
    the specification (its interior is the single non-whitespace character
    "f"), but under [Never] the walker reports it: [spacelessBracesRegex]
    asks for a non-whitespace character twice, so it rejects every
    interior of one character. *)
Theorem never_single_character_reported :
  let options := ["never"%string] in
  let sourceFile := lit "{f}" in
  let node := mkNode JsxExpression 0 3 [] in
  policyOf options = Never
  /\ spacelessShape (getText sourceFile node)
  /\ isValidExpression options (getText sourceFile node) = false
  /\ emits (visitJsxExpression options sourceFile node)
           [createFailure 0 3 NEVER_FAILURE_STRING]
  /\ (forall c, isValidExpression options [LBRACE; c; RBRACE] = false).
Proof.
  intros options sourceFile node. split; [reflexivity|].
  split; [|split; [|split]].
  - exists [], (lit "f"), []. repeat split.
    + left; reflexivity.
    + left; reflexivity.
    + exists 102%N. split; reflexivity.
    + exists 102%N. split; reflexivity.
  - reflexivity.
  - apply emits_expression_iff. reflexivity.
  - intros c. rewrite isValidExpression_policy.
    change (policyOf options) with Never. cbv iota.
    destruct (test spacelessBracesRegex [LBRACE; c; RBRACE]) eqn:T; [|reflexivity].
    apply spacelessBracesRegex_shape, spacelessShape2_length in T.
    simpl in T. lia.
Qed.

(** C5.  Whatever the options, a node whose text is exactly "{", "{..."
    or "{ ..." produces no finding. *)
Theorem degenerate_texts_silent options sourceFile node :
  degenerate (getText sourceFile node) ->
  silent (visitJsxExpression options sourceFile node).
Proof.
  intros H. apply emits_expression_iff.
  unfold expressionFailures.
  apply isSkippableExpression_degenerate in H. rewrite H. reflexivity.
Qed.

Lemma degenerate_texts_silent_witness :
  silent (visitJsxExpression ["always"%string] (lit "{ ...")
                             (mkNode JsxExpression 0 5 [])).
Proof.
  apply (degenerate_texts_silent ["always"%string] (lit "{ ...")
           (mkNode JsxExpression 0 5 [])).
  right; right; reflexivity.
Defined.

End ExpressionClaims.

(* ===================================================================== *)
(** * Spread attributes: the global match and the offsets                 *)
(* ===================================================================== *)

Module SpreadFacts.
Import JS Host Rule Spec MatcherFacts ExpressionFacts.

Lemma slice_from text n k : slice text n (n + k) = firstn k (skipn n text).
Proof. unfold slice. replace (n + k - n) with k by lia. reflexivity. Qed.

(** The end index of a match lies between the start and the end of the
    input. *)
Lemma rmatch_end r pos s e :
  rmatch r pos s (fun e _ => Some e) = Some e ->
  pos <= e <= pos + List.length s.
Proof.
  intros H. apply rmatch_sound in H.
  destruct H as (s1 & s2 & -> & _ & H). injection H as <-.
  rewrite length_app. lia.
Qed.

Lemma search_bounds r s : forall i b e,
  search r i s = Some (b, e) ->
  i <= b /\ b <= e /\ e <= i + List.length s.
Proof.
  induction s as [|c s IH]; intros i b e H; simpl in H.
  - destruct (rmatch r i [] (fun e _ => Some e)) eqn:M; try discriminate.
    injection H as <- <-. apply rmatch_end in M. simpl in *. lia.
  - destruct (rmatch r i (c :: s) (fun e _ => Some e)) eqn:M.
    + injection H as <- <-. apply rmatch_end in M. simpl in *. lia.
    + apply IH in H. simpl. lia.
Qed.

(** A successful [exec] returns a slice of the text and, for a global
    regular expression, leaves [lastIndex] at the end of the match. *)
Lemma exec_Some re lastIndex text m li :
  exec re lastIndex text = (Some m, li) ->
  exists b e, b <= e /\ e <= List.length text /\ m = slice text b e
              /\ (global re = true -> li = e /\ lastIndex <= e).
Proof.
  unfold exec. intros H.
  set (i := if global re then lastIndex else 0) in *.
  destruct (Nat.ltb (List.length text) i) eqn:L; try discriminate.
  apply Nat.ltb_ge in L.
  destruct (search (source re) i (skipn i text)) as [[b e]|] eqn:S;
    try discriminate.
  injection H as <- <-.
  apply search_bounds in S. rewrite length_skipn in S.
  exists b, e. split; [lia|]. split; [lia|]. split; [reflexivity|].
  intros G. subst i. rewrite G in *. split; [reflexivity | lia].
Qed.

Lemma slice_length text b e :
  b <= e -> e <= List.length text -> List.length (slice text b e) = e - b.
Proof.
  intros. unfold slice. rewrite length_firstn, length_skipn. lia.
Qed.

Lemma slice_occursAt text b e :
  b <= e -> e <= List.length text -> occursAt text (slice text b e) b.
Proof.
  intros Hb He. unfold occursAt.
  rewrite slice_length by lia. replace (b + (e - b)) with e by lia.
  reflexivity.
Qed.

(** Everything [String.prototype.match] returns occurs in the text. *)
Lemma matchLoop_occurs re text fuel : forall li prev A A',
  matchLoop fuel re text li prev A = Some A' ->
  Forall (fun m => exists n, occursAt text m n) A ->
  Forall (fun m => exists n, occursAt text m n) A'.
Proof.
  induction fuel as [|fuel IH]; intros li prev A A' H HA; simpl in H.
  - discriminate.
  - destruct (exec re li text) as [[m|] li'] eqn:E.
    + assert (HA' : Forall (fun m => exists n, occursAt text m n) (A ++ [m])).
      { apply Forall_app. split; auto. constructor; auto.
        apply exec_Some in E. destruct E as (b & e & Hb & He & -> & _).
        exists b. apply slice_occursAt; auto. }
      destruct (Nat.eqb li' prev); eapply IH; eauto.
    + injection H as <-. exact HA.
Qed.

Lemma matchAll_occurs re text m :
  In m (matchAll re text) -> exists n, occursAt text m n.
Proof.
  unfold matchAll.
  destruct (matchLoop (S (S (List.length text))) re text 0 0 []) as [A|] eqn:L.
  - intros Hin. apply matchLoop_occurs in L; [|constructor].
    rewrite Forall_forall in L. auto.
  - intros [].
Qed.

(** The loop of [String.prototype.match] ends within its fuel. *)
Lemma matchLoop_fuel re text : global re = true ->
  forall fuel li A,
    1 <= fuel ->
    List.length text + 2 <= fuel + li ->
    matchLoop fuel re text li li A <> None.
Proof.
  intros G. induction fuel as [|fuel IH]; intros li A H1 Hf; simpl.
  - lia.
  - destruct (exec re li text) as [[m|] li'] eqn:E; [|discriminate].
    apply exec_Some in E. destruct E as (b & e & _ & Hlen & _ & He).
    destruct (He G) as [-> Hle].
    destruct (Nat.eqb e li) eqn:Q.
    + apply Nat.eqb_eq in Q. apply IH; lia.
    + apply Nat.eqb_neq in Q. apply IH; lia.
Qed.

Lemma matchAll_terminates re text : global re = true ->
  exists A, matchLoop (S (S (List.length text))) re text 0 0 [] = Some A
            /\ matchAll re text = A.
Proof.
  intros G. unfold matchAll.
  destruct (matchLoop (S (S (List.length text))) re text 0 0 []) as [A|] eqn:L.
  - eauto.
  - exfalso. revert L. apply matchLoop_fuel; auto; lia.
Qed.

(** [indexOf] finds an occurrence whenever there is one. *)
Lemma isPrefix_firstn m : forall text,
  isPrefix m text = true <-> firstn (List.length m) text = m.
Proof.
  induction m as [|a m IH]; intros [|b text]; simpl; split; intros H;
    try discriminate; auto.
  - apply andb_prop in H. destruct H as [Hab H].
    apply N.eqb_eq in Hab. apply IH in H. congruence.
  - injection H as -> H. rewrite N.eqb_refl. simpl. apply IH. exact H.
Qed.

Lemma indexOf_from_found m text : forall n k,
  occursAt text m n ->
  exists j, indexOf_from text m k = (k + Z.of_nat j)%Z /\ occursAt text m j.
Proof.
  unfold occursAt.
  induction text as [|c text IH]; intros n k H; rewrite slice_from in H.
  - rewrite skipn_nil, firstn_nil in H. subst m.
    exists 0. simpl. split; [lia | reflexivity].
  - simpl. destruct (isPrefix m (c :: text)) eqn:P.
    + exists 0. split; [lia|]. rewrite slice_from. simpl skipn.
      apply isPrefix_firstn. exact P.
    + destruct n as [|n].
      { simpl in H. apply isPrefix_firstn in H. congruence. }
      simpl in H. rewrite <- slice_from in H.
      destruct (IH n (k + 1)%Z H) as (j & Hj & Ho).
      exists (S j). split; [lia|].
      rewrite slice_from in *. simpl. exact Ho.
Qed.

Lemma indexOf_found text m n :
  occursAt text m n ->
  exists j, indexOf text m = Z.of_nat j /\ occursAt text m j.
Proof.
  intros H. destruct (indexOf_from_found 0 H) as (j & Hj & Ho).
  exists j. split; auto.
Qed.

(** Slicing the file where a slice of the node's text was found. *)
Lemma substring_in_range text a b :
  a <= b -> b <= List.length text ->
  substring text (Z.of_nat a) (Z.of_nat b) = slice text a b.
Proof.
  intros Ha Hb. unfold substring. cbv zeta.
  rewrite (Z.max_l (Z.of_nat a) 0), (Z.max_l (Z.of_nat b) 0) by lia.
  rewrite (Z.min_l (Z.of_nat a) (Z.of_nat (List.length text))) by lia.
  rewrite (Z.min_l (Z.of_nat b) (Z.of_nat (List.length text))) by lia.
  rewrite Z.min_l, Z.max_r by lia.
  rewrite !Nat2Z.id. reflexivity.
Qed.

Lemma reslice sourceFile node m j :
  inFile sourceFile node ->
  occursAt (getText sourceFile node) m j ->
  substring sourceFile (getStart node + Z.of_nat j)
            (getStart node + Z.of_nat j + Z.of_nat (List.length m)) = m.
Proof.
  intros [[Hs He] Hl] H. unfold getText in H.
  destruct (Z_of_nat_complete (getStart node)) as (s & Es); [lia|].
  destruct (Z_of_nat_complete (getEnd node)) as (e & Ee); [lia|].
  rewrite Es, Ee in *.
  rewrite substring_in_range in H by lia.
  unfold occursAt in H. rewrite slice_from in H. unfold slice in H.
  destruct m as [|a m].
  - simpl. rewrite Z.add_0_r, <- Nat2Z.inj_add.
    unfold substring.
    rewrite Z.min_id, Z.max_id. unfold slice. rewrite Nat.sub_diag. reflexivity.
  - assert (Hpos : 0 < List.length (a :: m)) by (simpl; lia).
    remember (a :: m) as m' eqn:Em. clear Em.
    assert (Hlen : j + List.length m' <= e - s).
    { apply (f_equal (@List.length code_unit)) in H.
      rewrite length_firstn, length_skipn, length_firstn, length_skipn in H.
      lia. }
    rewrite <- !Nat2Z.inj_add. rewrite substring_in_range by lia.
    rewrite slice_from. etransitivity; [|exact H].
    rewrite skipn_firstn_comm, firstn_firstn, skipn_skipn.
    rewrite Nat.min_l by lia. rewrite (Nat.add_comm j s). reflexivity.
Qed.

(** Running the spread handler. *)
Lemma forEach_emits (A : Type) (f : A -> Walker unit) (g : A -> list RuleFailure) :
  (forall x st, f x st = Ok tt (emit (g x) st)) ->
  forall arr st, forEach arr f st = Ok tt (emit (flat_map g arr) st).
Proof.
  intros Hf. induction arr as [|x arr IH]; intros st; simpl.
  - rewrite emit_nil. reflexivity.
  - unfold bind. rewrite Hf, IH, emit_emit. reflexivity.
Qed.

Lemma spread_callback options sourceFile node m st :
  (if negb (isValidExpression options m)
   then
     if hasOption options OPTION_ALWAYS
     then addFailure
            (createFailure
               (getStart node + indexOf (getText sourceFile node) m)
               (Z.of_nat (List.length m)) ALWAYS_FAILURE_STRING)
     else if hasOption options OPTION_NEVER
          then addFailure
                 (createFailure
                    (getStart node + indexOf (getText sourceFile node) m)
                    (Z.of_nat (List.length m)) NEVER_FAILURE_STRING)
          else ret tt
   else ret tt) st
  = Ok tt (emit (spreadFailure options sourceFile node m) st).
Proof.
  unfold spreadFailure, messageFor.
  destruct (negb (isValidExpression options m));
    [destruct (hasOption options OPTION_ALWAYS);
     [|destruct (hasOption options OPTION_NEVER)]|];
    unfold ret; rewrite ?emit_nil; reflexivity.
Qed.

Lemma String_match_spread text lastIndex :
  String_match text spreadRegEx lastIndex =
  (match matchAll spreadRegEx text with [] => None | A => Some A end, 0).
Proof.
  unfold String_match. simpl global. cbv iota.
  destruct (matchAll spreadRegEx text); reflexivity.
Qed.

(** With at least one match the handler completes and emits
    [spreadFailures]; without a match it throws. *)
Lemma handleJsxSpreadNode_run options sourceFile node st :
  handleJsxSpreadNode options sourceFile node st =
  match matchAll spreadRegEx (getText sourceFile node) with
  | [] => TypeError
  | _ => Ok tt (mkState (failures st ++ spreadFailures options sourceFile node) 0)
  end.
Proof.
  unfold handleJsxSpreadNode, getJsxSpreads, bind, spreadFailures.
  rewrite String_match_spread.
  destruct (matchAll spreadRegEx (getText sourceFile node)) as [|m A] eqn:E.
  - reflexivity.
  - rewrite (@forEach_emits _ _ (spreadFailure options sourceFile node)).
    + reflexivity.
    + intros x st'. apply spread_callback.
Qed.

Lemma spread_visit_run options sourceFile node (super : Walker unit) st :
  (bind (hasSpreadInJsx (getText sourceFile node))
        (fun b =>
           bind (if b then handleJsxSpreadNode options sourceFile node else ret tt)
                (fun _ => super))) st
  = super (mkState (failures st ++ spreadFailures options sourceFile node) 0).
Proof.
  unfold bind, hasSpreadInJsx. rewrite String_match_spread. cbv beta iota.
  destruct (matchAll spreadRegEx (getText sourceFile node)) as [|m A] eqn:E;
    unfold truthy; cbv iota.
  - unfold ret, spreadFailures. rewrite E. simpl. rewrite app_nil_r. reflexivity.
  - rewrite handleJsxSpreadNode_run, E. reflexivity.
Qed.

Lemma visitJsxElement_run options sourceFile node super st :
  visitJsxElement options sourceFile node super st
  = super (mkState (failures st ++ spreadFailures options sourceFile node) 0).
Proof. apply spread_visit_run. Qed.

Lemma visitJsxSelfClosingElement_run options sourceFile node super st :
  visitJsxSelfClosingElement options sourceFile node super st
  = super (mkState (failures st ++ spreadFailures options sourceFile node) 0).
Proof. apply spread_visit_run. Qed.

End SpreadFacts.

(* ===================================================================== *)
(** * The walk over the tree                                              *)
(* ===================================================================== *)

Module WalkFacts.
Import JS Host Rule Spec ExpressionFacts SpreadFacts.

(** Induction on trees: the property holds for a node when it holds for
    all of its children. *)
Lemma Node_ind_children (P : Node -> Prop) :
  (forall k s e cs, Forall P cs -> P (mkNode k s e cs)) ->
  forall n, P n.
Proof.
  intros H. fix IH 1. intros [k s e cs]. apply H.
  induction cs as [|c cs IHcs]; constructor.
  - apply IH.
  - exact IHcs.
Qed.

Lemma visitNode_unfold v k s e cs :
  visitNode v (mkNode k s e cs) =
  match k with
  | JsxAttribute => onJsxAttribute v (mkNode k s e cs) (walkChildren v cs)
  | JsxElement => onJsxElement v (mkNode k s e cs) (walkChildren v cs)
  | JsxExpression => onJsxExpression v (mkNode k s e cs) (walkChildren v cs)
  | JsxSelfClosingElement =>
      onJsxSelfClosingElement v (mkNode k s e cs) (walkChildren v cs)
  | OtherKind => walkChildren v cs
  end.
Proof. reflexivity. Qed.

Lemma walkChildren_cons v c cs :
  walkChildren v (c :: cs) = bind (visitNode v c) (fun _ => walkChildren v cs).
Proof. reflexivity. Qed.

Lemma treeFailures_unfold options sourceFile k s e cs :
  treeFailures options sourceFile (mkNode k s e cs) =
  ownFailures options sourceFile (mkNode k s e cs)
  ++ childrenFailures options sourceFile cs.
Proof.
  reflexivity.
Qed.

Lemma lastIndexAfter_unfold k s e cs li :
  lastIndexAfter (mkNode k s e cs) li =
  childrenLastIndex cs
    (match k with
     | JsxElement | JsxSelfClosingElement => 0
     | JsxExpression | JsxAttribute | OtherKind => li
     end).
Proof.
  simpl. unfold childrenLastIndex.
  generalize (match k with
              | JsxElement | JsxSelfClosingElement => 0
              | JsxExpression | JsxAttribute | OtherKind => li
              end).
  induction cs as [|c cs IH]; intros n; simpl; [reflexivity | apply IH].
Qed.

(** The list the walker keeps: the calls, with a failure equal to an
    earlier one dropped. *)
Lemma RuleFailure_equals_eq f g : RuleFailure_equals f g = true <-> f = g.
Proof.
  destruct f as [s1 w1 m1], g as [s2 w2 m2]. unfold RuleFailure_equals.
  cbn [failureStart failureWidth failureMessage].
  rewrite !andb_true_iff, String.eqb_eq, !Z.eqb_eq. split.
  - intros [[-> ->] H]. f_equal. lia.
  - intros H. injection H as -> -> ->. auto.
Qed.

Lemma existsFailure_In kept f : existsFailure kept f = true <-> In f kept.
Proof.
  unfold existsFailure. rewrite existsb_exists. split.
  - intros (g & Hg & E). apply RuleFailure_equals_eq in E. congruence.
  - intros H. exists f. split; [exact H | apply RuleFailure_equals_eq; reflexivity].
Qed.

Lemma pushFailure_In kept g f :
  In f (pushFailure kept g) <-> In f kept \/ f = g.
Proof.
  unfold pushFailure. destruct (existsFailure kept g) eqn:E.
  - apply existsFailure_In in E. split; [auto|]. intros [H | ->]; auto.
  - rewrite in_app_iff. simpl. intuition congruence.
Qed.

Lemma pushFailure_NoDup kept g : NoDup kept -> NoDup (pushFailure kept g).
Proof.
  intros H. unfold pushFailure. destruct (existsFailure kept g) eqn:E; auto.
  assert (N : ~ In g kept).
  { intros X. apply existsFailure_In in X. congruence. }
  apply NoDup_rev in H. rewrite <- (rev_involutive (kept ++ [g])).
  apply NoDup_rev. rewrite rev_app_distr. simpl. constructor; auto.
  rewrite <- in_rev. exact N.
Qed.

Lemma fold_pushFailure calls : forall acc,
  (forall f, In f (fold_left pushFailure calls acc) <-> In f acc \/ In f calls)
  /\ (NoDup acc -> NoDup (fold_left pushFailure calls acc)).
Proof.
  induction calls as [|g calls IH]; intros acc; simpl.
  - split; [intros f; tauto | auto].
  - destruct (IH (pushFailure acc g)) as [I N]. split.
    + intros f. rewrite I, pushFailure_In. intuition congruence.
    + intros H. apply N, pushFailure_NoDup, H.
Qed.

Lemma keptFailures_In calls f : In f (keptFailures calls) <-> In f calls.
Proof.
  unfold keptFailures. rewrite (proj1 (fold_pushFailure calls [])).
  simpl. tauto.
Qed.


Lemma keptFailures_Forall (Q : RuleFailure -> Prop) calls :
  Forall Q calls -> Forall Q (keptFailures calls).
Proof.
  rewrite !Forall_forall. intros H f Hf. apply H, keptFailures_In, Hf.
Qed.

Section Walk.
Variable options : list string.
Variable sourceFile : jsstring.

Lemma walkChildren_run cs :
  Forall (runs options sourceFile) cs ->
  forall fs li,
    walkChildren (JsxCurlySpacingWalker options sourceFile) cs (mkState fs li)
    = Ok tt (mkState (fs ++ childrenFailures options sourceFile cs)
                     (childrenLastIndex cs li)).
Proof.
  induction 1 as [|c cs Hc _ IH]; intros fs li.
  - simpl. unfold ret. rewrite app_nil_r. reflexivity.
  - rewrite walkChildren_cons. unfold bind. rewrite Hc, IH.
    unfold childrenFailures. simpl. rewrite app_assoc. reflexivity.
Qed.

(** The walk never throws; it appends [treeFailures] to the failure
    list. *)
Lemma visitNode_run n : runs options sourceFile n.
Proof.
  induction n as [k s e cs IH] using Node_ind_children.
  intros fs li.
  rewrite visitNode_unfold, treeFailures_unfold, lastIndexAfter_unfold.
  pose proof (walkChildren_run IH) as HC.
  unfold ownFailures. cbn [kind].
  destruct k; cbn [JsxCurlySpacingWalker onJsxAttribute onJsxElement
                             onJsxExpression onJsxSelfClosingElement].
  - rewrite visitJsxElement_run. cbn [failures].
    rewrite HC, app_assoc. reflexivity.
  - rewrite visitJsxSelfClosingElement_run. cbn [failures].
    rewrite HC, app_assoc. reflexivity.
  - rewrite visitJsxExpression_emits. unfold emit. cbn [failures spreadLastIndex].
    rewrite HC, app_assoc. reflexivity.
  - unfold visitJsxAttribute. rewrite HC, app_nil_l. reflexivity.
  - rewrite HC, app_nil_l. reflexivity.
Qed.

Lemma apply_run root li :
  apply options sourceFile root li
  = Ok (keptFailures (treeFailures options sourceFile root))
       (mkState (treeFailures options sourceFile root) (lastIndexAfter root li)).
Proof.
  unfold apply. rewrite visitNode_run. reflexivity.
Qed.

End Walk.

(** The calls of a walk are [treeFailures]. *)
Lemma visitNode_hands options sourceFile n :
  SpecExt.hands options sourceFile n (treeFailures options sourceFile n).
Proof.
  intros [fs li]. eexists. split; [apply visitNode_run | reflexivity].
Qed.

(** Properties of [treeFailures] follow from properties of [ownFailures]. *)
Lemma treeFailures_Forall options sourceFile (Q : RuleFailure -> Prop) :
  (forall n, Forall Q (ownFailures options sourceFile n)) ->
  forall n, Forall Q (treeFailures options sourceFile n).
Proof.
  intros H n. induction n as [k s e cs IH] using Node_ind_children.
  rewrite treeFailures_unfold. apply Forall_app. split; [apply H|].
  unfold childrenFailures.
  induction IH as [|c cs Hc _ IHcs]; simpl; [constructor|].
  apply Forall_app. split; assumption.
Qed.

Lemma treeFailures_ext options1 options2 sourceFile :
  (forall n, ownFailures options1 sourceFile n = ownFailures options2 sourceFile n) ->
  forall n, treeFailures options1 sourceFile n = treeFailures options2 sourceFile n.
Proof.
  intros H n. induction n as [k s e cs IH] using Node_ind_children.
  rewrite !treeFailures_unfold, H. f_equal.
  unfold childrenFailures.
  induction IH as [|c cs Hc _ IHcs]; simpl; [reflexivity|].
  rewrite Hc, IHcs. reflexivity.
Qed.

End WalkFacts.

(* ===================================================================== *)
(** * Spread attributes and whole runs                                    *)
(* ===================================================================== *)

Module SpreadClaims.
Import JS Host Rule Spec ExpressionFacts SpreadFacts WalkFacts.

(** C6 at its failing input.  The text of the element
    "<div {...props}><span {...props}/></div>" holds the same spread text
    twice, matched at offsets 5 and 22.  Under [Always] both matches are
    invalid, and both are reported at offset 5: [text.indexOf(match)] is
    the offset of the first occurrence of the matched text, not the
    offset of the match. *)
Theorem duplicate_spreads_share_offset :
  let options := ["always"%string] in
  let sourceFile := lit "<div {...props}><span {...props}/></div>" in
  let node := mkNode JsxElement 0 40 [] in
  let text := getText sourceFile node in
  exec spreadRegEx 0 text = (Some (slice text 5 15), 15)
  /\ exec spreadRegEx 15 text = (Some (slice text 22 32), 32)
  /\ matchAll spreadRegEx text = [lit "{...props}"; lit "{...props}"]
  /\ forall super st,
       visitJsxElement options sourceFile node super st
       = super (mkState (failures st
                           ++ [createFailure 5 10 ALWAYS_FAILURE_STRING;
                               createFailure 5 10 ALWAYS_FAILURE_STRING]) 0).
Proof.
  intros options sourceFile node text.
  split; [reflexivity|]. split; [reflexivity|]. split; [reflexivity|].
  intros super st. rewrite visitJsxElement_run. reflexivity.
Qed.

Lemma spreadFailure_invalid options sourceFile node m :
  isValidExpression options m = false ->
  exists message,
    spreadFailure options sourceFile node m =
    [createFailure (getStart node + indexOf (getText sourceFile node) m)
                   (Z.of_nat (List.length m)) message].
Proof.
  intros H. unfold spreadFailure, messageFor. rewrite H. simpl.
  unfold isValidExpression in H.
  destruct (hasOption options OPTION_ALWAYS); [eauto|].
  destruct (hasOption options OPTION_NEVER); [eauto | discriminate].
Qed.

Lemma spreadFailure_valid options sourceFile node m :
  isValidExpression options m = true ->
  spreadFailure options sourceFile node m = [].
Proof. intros H. unfold spreadFailure. rewrite H. reflexivity. Qed.

(** C7.  For a node inside the file whose text holds a spread (which is
    when the visitors call the handler), the handler completes, and the
    failures it adds correspond, in order, to the matches that are invalid
    under the options: slicing the source file at a failure's offset and
    offset plus width gives back the matched text. *)
Theorem spread_findings_reslice options sourceFile node :
  inFile sourceFile node ->
  matchAll spreadRegEx (getText sourceFile node) <> [] ->
  forall st,
  exists found,
    handleJsxSpreadNode options sourceFile node st
    = Ok tt (mkState (failures st ++ found) 0)
    /\ Forall2
         (fun f m =>
            substring sourceFile (failureStart f)
                      (failureStart f + failureWidth f) = m)
         found
         (filter (fun m => negb (isValidExpression options m))
                 (matchAll spreadRegEx (getText sourceFile node))).
Proof.
  intros Hin Hne st.
  exists (spreadFailures options sourceFile node). split.
  - rewrite handleJsxSpreadNode_run.
    destruct (matchAll spreadRegEx (getText sourceFile node));
      [contradiction | reflexivity].
  - unfold spreadFailures. clear Hne.
    pose proof (@matchAll_occurs spreadRegEx (getText sourceFile node)) as Ho.
    induction (matchAll spreadRegEx (getText sourceFile node)) as [|m ms IH];
      simpl.
    + constructor.
    + assert (IH' : Forall2
                      (fun f m0 =>
                         substring sourceFile (failureStart f)
                                   (failureStart f + failureWidth f) = m0)
                      (flat_map (spreadFailure options sourceFile node) ms)
                      (filter (fun m0 => negb (isValidExpression options m0)) ms)).
      { apply IH. intros m0 Hm0. apply Ho. right. exact Hm0. }
      clear IH.
      destruct (isValidExpression options m) eqn:V; simpl.
      * rewrite spreadFailure_valid by exact V. exact IH'.
      * destruct (@spreadFailure_invalid options sourceFile node m V) as (msg & ->).
        simpl. constructor; [|exact IH'].
        cbn [failureStart failureWidth].
        destruct (Ho m (or_introl eq_refl)) as (n & Hn).
        destruct (indexOf_found Hn) as (j & -> & Hj).
        apply reslice; assumption.
Qed.

Lemma spread_findings_reslice_witness :
  exists found,
    handleJsxSpreadNode ["never"%string] (lit "<a { ...b } {...c}/>")
                        (mkNode JsxSelfClosingElement 0 20 [])
                        (mkState [] 0)
    = Ok tt (mkState ([] ++ found) 0)
    /\ Forall2
         (fun f m =>
            substring (lit "<a { ...b } {...c}/>") (failureStart f)
                      (failureStart f + failureWidth f) = m)
         found
         [lit "{ ...b }"].
Proof.
  apply (@spread_findings_reslice ["never"%string] (lit "<a { ...b } {...c}/>")
           (mkNode JsxSelfClosingElement 0 20 [])).
  - unfold inFile. simpl. lia.
  - discriminate.
Defined.

End SpreadClaims.

Module WalkClaims.
Import JS Host Rule Spec ExpressionFacts SpreadFacts WalkFacts.

(** C8.  Two runs of the checker on the same tree with the same options,
    the second starting from the state of the static regular expression
    the first left behind, both complete and return the same list of
    failures. *)
Theorem apply_twice_identical options sourceFile root lastIndex :
  exists fs st1 st2,
    apply options sourceFile root lastIndex = Ok fs st1
    /\ apply options sourceFile root (spreadLastIndex st1) = Ok fs st2.
Proof.
  do 3 eexists. split; rewrite apply_run; reflexivity.
Qed.

(** C9.  When [hasSpreadInJsx] has answered true for a text,
    [getJsxSpreads] on the same text returns a non-empty array, not
    [null], whatever [lastIndex] was; so the handlers of element nodes
    never throw, and neither does a walk of any tree. *)
Theorem spreads_never_null :
  (forall text st st1,
      hasSpreadInJsx text st = Ok true st1 ->
      exists arr, arr <> []
                  /\ getJsxSpreads text st1 = Ok (Some arr) st1)
  /\ (forall options sourceFile node super st,
         exists st',
           failures st' = failures st ++ spreadFailures options sourceFile node
           /\ visitJsxElement options sourceFile node super st = super st'
           /\ visitJsxSelfClosingElement options sourceFile node super st
              = super st')
  /\ (forall options sourceFile root st,
         exists st',
           visitNode (JsxCurlySpacingWalker options sourceFile) root st
           = Ok tt st').
Proof.
  split; [|split].
  - intros text st st1 H. unfold hasSpreadInJsx in H.
    rewrite String_match_spread in H.
    unfold getJsxSpreads. rewrite String_match_spread.
    destruct (matchAll spreadRegEx text) as [|m A]; simpl in H.
    + discriminate.
    + injection H as <-. exists (m :: A). split; [discriminate | reflexivity].
  - intros options sourceFile node super st. eexists. split; [|split].
    2: apply visitJsxElement_run.
    2: apply visitJsxSelfClosingElement_run.
    reflexivity.
  - intros options sourceFile root [fs li]. eexists. apply visitNode_run.
Qed.

Lemma spreads_never_null_witness :
  exists arr, arr <> []
              /\ getJsxSpreads (lit "<a {...b}/>") (mkState [] 0)
                 = Ok (Some arr) (mkState [] 0).
Proof.
  apply (proj1 spreads_never_null (lit "<a {...b}/>") (mkState [] 7)).
  reflexivity.
Defined.

Lemma isValidExpression_always options text :
  hasOption options OPTION_ALWAYS = true ->
  isValidExpression options text = test spacedBracesRegex text.
Proof. intros H. unfold isValidExpression. rewrite H. reflexivity. Qed.

Lemma messageFor_always options start width :
  hasOption options OPTION_ALWAYS = true ->
  messageFor options start width
  = [createFailure start width ALWAYS_FAILURE_STRING].
Proof. intros H. unfold messageFor. rewrite H. reflexivity. Qed.

Lemma ownFailures_always options sourceFile n :
  hasOption options OPTION_ALWAYS = true ->
  ownFailures options sourceFile n
  = ownFailures ["always"%string] sourceFile n.
Proof.
  intros H.
  assert (H' : hasOption ["always"%string] OPTION_ALWAYS = true) by reflexivity.
  unfold ownFailures, spreadFailures, expressionFailures.
  destruct (kind n); try reflexivity.
  - apply flat_map_ext. intros m. unfold spreadFailure.
    rewrite !isValidExpression_always, !messageFor_always by assumption.
    reflexivity.
  - apply flat_map_ext. intros m. unfold spreadFailure.
    rewrite !isValidExpression_always, !messageFor_always by assumption.
    reflexivity.
  - rewrite !isValidExpression_always, !messageFor_always by assumption.
    reflexivity.
Qed.

Lemma ownFailures_always_message options sourceFile n :
  hasOption options OPTION_ALWAYS = true ->
  Forall (fun f => failureMessage f = ALWAYS_FAILURE_STRING)
         (ownFailures options sourceFile n).
Proof.
  intros H. unfold ownFailures, spreadFailures, expressionFailures.
  assert (S : forall m,
             Forall (fun f => failureMessage f = ALWAYS_FAILURE_STRING)
                    (spreadFailure options sourceFile n m)).
  { intros m. unfold spreadFailure. rewrite messageFor_always by assumption.
    destruct (negb _); repeat constructor. }
  destruct (kind n); try constructor.
  - apply Forall_flat_map. apply Forall_forall. intros m _. apply S.
  - apply Forall_flat_map. apply Forall_forall. intros m _. apply S.
  - rewrite messageFor_always by assumption.
    destruct (negb _ && negb _); repeat constructor.
Qed.

(** C10.  With both "always" and "never" among the options, validity is
    decided by [spacedBracesRegex] alone, a run returns exactly what it
    returns with "always" as the only option, and every failure carries
    the [Always] message. *)
Theorem always_and_never_as_always options :
  hasOption options OPTION_ALWAYS = true ->
  hasOption options OPTION_NEVER = true ->
  (forall text, isValidExpression options text = test spacedBracesRegex text)
  /\ (forall sourceFile root lastIndex,
         apply options sourceFile root lastIndex
         = apply ["always"%string] sourceFile root lastIndex)
  /\ (forall sourceFile root lastIndex fs st,
         apply options sourceFile root lastIndex = Ok fs st ->
         Forall (fun f => failureMessage f = ALWAYS_FAILURE_STRING) fs).
Proof.
  intros Ha _. split; [|split].
  - intros text. apply isValidExpression_always. exact Ha.
  - intros sourceFile root li. rewrite !apply_run.
    rewrite (@treeFailures_ext options ["always"%string] sourceFile); auto.
    intros n. apply ownFailures_always. exact Ha.
  - intros sourceFile root li fs st H. rewrite apply_run in H.
    injection H as <- _. apply keptFailures_Forall, treeFailures_Forall.
    intros n. apply ownFailures_always_message. exact Ha.
Qed.

Lemma always_and_never_as_always_witness :
  apply ["never"%string; "always"%string] (lit "<a {...b}>{c}</a>")
        (mkNode JsxElement 0 18 [mkNode JsxExpression 10 13 []]) 0
  = apply ["always"%string] (lit "<a {...b}>{c}</a>")
          (mkNode JsxElement 0 18 [mkNode JsxExpression 10 13 []]) 0.
Proof.
  apply (proj1 (proj2 (@always_and_never_as_always
                         ["never"%string; "always"%string]
                         eq_refl eq_refl))).
Defined.

End WalkClaims.

(* ===================================================================== *)
(** * The spread pattern                                                  *)
(* ===================================================================== *)

Module SpreadPatternFacts.
Import JS Host Rule Spec SpecExt MatcherFacts PatternFacts.

(** The character classes of [spreadRegEx] are disjoint from each other
    and from the braces. *)
Ltac class_props :=
  unfold wordOrDot, isWordChar, isWhiteSpace, isChar, in_range,
    LBRACE, RBRACE, DOT, LF in *;
  repeat match goal with
         | H : _ = true |- _ =>
             progress repeat rewrite ?orb_true_iff, ?andb_true_iff,
               ?N.leb_le, ?N.eqb_eq in H
         end.

Lemma wordOrDot_not_whiteSpace c : wordOrDot c = true -> isWhiteSpace c = false.
Proof.
  intros H. destruct (isWhiteSpace c) eqn:W; [|reflexivity].
  exfalso. class_props. lia.
Qed.

Lemma wordOrDot_not_brace c :
  wordOrDot c = true -> c <> LBRACE /\ c <> RBRACE.
Proof. intros H. class_props. split; lia. Qed.

Lemma whiteSpace_not_brace c :
  isWhiteSpace c = true -> c <> LBRACE /\ c <> RBRACE /\ c <> DOT.
Proof. intros H. class_props. repeat split; lia. Qed.

Lemma forallb_Forall (p : code_unit -> bool) (Q : code_unit -> Prop) l :
  (forall c, p c = true -> Q c) -> forallb p l = true -> Forall Q l.
Proof.
  intros H. induction l as [|c l IH]; simpl; intros F; constructor.
  - apply H. apply andb_prop in F. tauto.
  - apply IH. apply andb_prop in F. tauto.
Qed.

(** What [spreadRegEx] can consume, at any position. *)
Lemma spread_matches_shape pos s rest :
  matches (source spreadRegEx) pos s rest <-> spreadShape s.
Proof.
  unfold spreadRegEx. cbn [source]. split.
  - intros M. inv_matches.
    match goal with
    | |- spreadShape ([LBRACE] ++ ?w1 ++ _ ++ ?p ++ ?w2 ++ _) =>
        exists w1, p, w2
    end.
    repeat split; auto.
  - intros (ws1 & path & ws2 & -> & H1 & Hp & H2).
    change (LBRACE :: ws1 ++ [DOT; DOT; DOT] ++ path ++ ws2 ++ [RBRACE])
      with ([LBRACE] ++ ws1 ++ ([DOT] ++ [DOT] ++ [DOT]) ++ path ++ ws2 ++ [RBRACE]).
    repeat (apply M_Seq); constructor; auto using isChar_refl.
Qed.

Lemma spreadShape_length m : spreadShape m -> 5 <= List.length m.
Proof.
  intros (ws1 & path & ws2 & -> & _).
  simpl. rewrite !length_app. simpl. rewrite !length_app. simpl. lia.
Qed.

(** A spread text has one opening brace, at its start, and one closing
    brace, at its end. *)
Lemma spreadShape_braces m :
  spreadShape m ->
  (exists tl, m = LBRACE :: tl /\ Forall (fun c => c <> LBRACE) tl)
  /\ (exists body, m = body ++ [RBRACE] /\ Forall (fun c => c <> RBRACE) body).
Proof.
  intros (ws1 & path & ws2 & -> & H1 & Hp & H2).
  pose proof (@forallb_Forall _ (fun c => c <> LBRACE) _
                (fun c H => proj1 (whiteSpace_not_brace c H)) H1) as L1.
  pose proof (@forallb_Forall _ (fun c => c <> LBRACE) _
                (fun c H => proj1 (whiteSpace_not_brace c H)) H2) as L2.
  pose proof (@forallb_Forall _ (fun c => c <> LBRACE) _
                (fun c H => proj1 (wordOrDot_not_brace c H)) Hp) as Lp.
  pose proof (@forallb_Forall _ (fun c => c <> RBRACE) _
                (fun c H => proj1 (proj2 (whiteSpace_not_brace c H))) H1) as R1.
  pose proof (@forallb_Forall _ (fun c => c <> RBRACE) _
                (fun c H => proj1 (proj2 (whiteSpace_not_brace c H))) H2) as R2.
  pose proof (@forallb_Forall _ (fun c => c <> RBRACE) _
                (fun c H => proj2 (wordOrDot_not_brace c H)) Hp) as Rp.
  split.
  - eexists. split; [reflexivity|].
    repeat (apply Forall_app; split); auto;
      repeat constructor; discriminate.
  - exists (LBRACE :: ws1 ++ [DOT; DOT; DOT] ++ path ++ ws2). split.
    + simpl. rewrite <- !app_assoc. simpl. rewrite <- !app_assoc. reflexivity.
    + constructor; [discriminate|].
      repeat (apply Forall_app; split); auto;
        repeat constructor; discriminate.
Qed.

Lemma first_brace (x : code_unit) body1 : forall body2 r1 r2,
  Forall (fun c => c <> x) body1 -> Forall (fun c => c <> x) body2 ->
  body1 ++ x :: r1 = body2 ++ x :: r2 -> body1 = body2.
Proof.
  induction body1 as [|a body1 IH]; intros [|b body2] r1 r2 F1 F2 E;
    simpl in E.
  - reflexivity.
  - injection E as E _. inversion F2; subst. congruence.
  - injection E as E _. inversion F1; subst. congruence.
  - injection E as -> E. f_equal.
    inversion F1; inversion F2; subst. eapply IH; eauto.
Qed.

(** Two spread texts that start at the same place are the same text. *)
Lemma spreadShape_prefix_unique m1 m2 r1 r2 :
  spreadShape m1 -> spreadShape m2 -> m1 ++ r1 = m2 ++ r2 -> m1 = m2.
Proof.
  intros S1 S2 E.
  destruct (proj2 (spreadShape_braces S1)) as (b1 & -> & F1).
  destruct (proj2 (spreadShape_braces S2)) as (b2 & -> & F2).
  rewrite <- !app_assoc in E. simpl in E.
  f_equal. eapply first_brace; eauto.
Qed.

End SpreadPatternFacts.

(* ===================================================================== *)
(** * Where the matches are                                               *)
(* ===================================================================== *)

Module SpanFacts.
Import JS Host Rule Spec SpecExt MatcherFacts PatternFacts SpreadFacts
       SpreadPatternFacts.

(** [search] returns the leftmost index at which the pattern matches. *)
Lemma search_found r s : forall i b e,
  search r i s = Some (b, e) ->
  i <= b
  /\ rmatch r b (skipn (b - i) s) (fun e _ => Some e) = Some e
  /\ forall q, i <= q < b ->
               rmatch r q (skipn (q - i) s) (fun e _ => Some e) = None.
Proof.
  induction s as [|c s IH]; intros i b e H; simpl in H.
  - destruct (rmatch r i [] (fun e _ => Some e)) eqn:M; try discriminate.
    injection H as <- <-. rewrite Nat.sub_diag. simpl.
    repeat split; auto. intros q Hq. lia.
  - destruct (rmatch r i (c :: s) (fun e _ => Some e)) eqn:M.
    + injection H as <- <-. rewrite Nat.sub_diag. simpl.
      repeat split; auto. intros q Hq. lia.
    + apply IH in H. destruct H as (Hb & Hm & Hl).
      split; [lia|]. split.
      * replace (b - i) with (S (b - S i)) by lia. exact Hm.
      * intros q Hq. destruct (Nat.eq_dec q i) as [->|Hne].
        -- rewrite Nat.sub_diag. exact M.
        -- replace (q - i) with (S (q - S i)) by lia. apply Hl. lia.
Qed.

Lemma search_none r s : forall i,
  search r i s = None ->
  forall q, i <= q <= i + List.length s ->
            rmatch r q (skipn (q - i) s) (fun e _ => Some e) = None.
Proof.
  induction s as [|c s IH]; intros i H q Hq; simpl in H.
  - destruct (rmatch r i [] (fun e _ => Some e)) eqn:M; try discriminate.
    simpl in Hq. replace q with i by lia. rewrite Nat.sub_diag. exact M.
  - destruct (rmatch r i (c :: s) (fun e _ => Some e)) eqn:M; try discriminate.
    destruct (Nat.eq_dec q i) as [->|Hne].
    + rewrite Nat.sub_diag. exact M.
    + replace (q - i) with (S (q - S i)) by lia. apply IH; auto.
      simpl in Hq. lia.
Qed.

Lemma skipn_sub (text : jsstring) i q :
  i <= q -> skipn (q - i) (skipn i text) = skipn q text.
Proof. intros H. rewrite skipn_skipn. f_equal. lia. Qed.

Lemma exists_last_or_nil (A : Type) (l : list A) :
  l = [] \/ exists l' z, l = l' ++ [z].
Proof.
  induction l as [|z l' _] using rev_ind; [left | right]; eauto.
Qed.

Lemma exists_last_or_nil_cu (l : jsstring) :
  l = [] \/ exists l' z, l = l' ++ [z].
Proof. apply exists_last_or_nil. Qed.

Section Global.
Variable re : RegExp.
Variable text : jsstring.
Hypothesis Hglobal : global re = true.

Lemma execAt_found lastIndex b e li :
  execAt re lastIndex text = (Some (b, e), li) ->
  lastIndex <= b /\ b <= e /\ e <= List.length text /\ li = e
  /\ rmatch (source re) b (skipn b text) (fun e _ => Some e) = Some e
  /\ forall q, lastIndex <= q < b -> ~ matchesAt re text q.
Proof.
  unfold execAt. rewrite Hglobal. intros H.
  destruct (Nat.ltb (List.length text) lastIndex) eqn:L; try discriminate.
  apply Nat.ltb_ge in L.
  destruct (search (source re) lastIndex (skipn lastIndex text))
    as [[b' e']|] eqn:S; try discriminate.
  injection H as -> -> <-.
  pose proof (search_bounds _ _ _ S) as (B1 & B2 & B3).
  rewrite length_skipn in B3.
  apply search_found in S. destruct S as (Hb & Hm & Hl).
  rewrite skipn_sub in Hm by lia.
  repeat split; try lia; auto.
  intros q Hq. unfold matchesAt. specialize (Hl q Hq).
  rewrite skipn_sub in Hl by lia. congruence.
Qed.

Lemma execAt_none lastIndex li :
  execAt re lastIndex text = (None, li) ->
  forall q, lastIndex <= q <= List.length text -> ~ matchesAt re text q.
Proof.
  unfold execAt. rewrite Hglobal. intros H q Hq.
  destruct (Nat.ltb (List.length text) lastIndex) eqn:L.
  - apply Nat.ltb_lt in L. lia.
  - destruct (search (source re) lastIndex (skipn lastIndex text))
      as [[b' e']|] eqn:S; try discriminate.
    unfold matchesAt.
    pose proof (@search_none _ _ _ S q) as N.
    rewrite length_skipn, skipn_sub in N by lia.
    rewrite N by lia. congruence.
Qed.

(** [exec] is [execAt] followed by [slice]. *)
Lemma exec_execAt lastIndex :
  exec re lastIndex text =
  (option_map (spanText text) (fst (execAt re lastIndex text)),
   snd (execAt re lastIndex text)).
Proof.
  unfold exec, execAt.
  destruct (Nat.ltb _ _); [reflexivity|].
  destruct (search _ _ _) as [[b e]|]; reflexivity.
Qed.

Lemma matchLoop_matchLoopAt fuel : forall li prev A,
  matchLoop fuel re text li prev (map (spanText text) A)
  = option_map (map (spanText text)) (matchLoopAt fuel re text li prev A).
Proof.
  induction fuel as [|fuel IH]; intros li prev A; simpl; [reflexivity|].
  rewrite exec_execAt.
  destruct (execAt re li text) as [[span|] li']; simpl; [|reflexivity].
  replace (map (spanText text) A ++ [spanText text span])
    with (map (spanText text) (A ++ [span]))
    by (rewrite map_app; reflexivity).
  destruct (Nat.eqb li' prev); apply IH.
Qed.

(** The matches are the texts of the spans. *)
Lemma matchAll_matchSpans :
  matchAll re text = map (spanText text) (matchSpans re text).
Proof.
  unfold matchAll, matchSpans.
  change (@nil jsstring) with (map (spanText text) []) at 1.
  rewrite matchLoop_matchLoopAt.
  destruct (matchLoopAt _ _ _ _ _ _); reflexivity.
Qed.

(** A pattern that cannot match the empty string. *)
Hypothesis Hprogress :
  forall b s e, rmatch (source re) b s (fun e _ => Some e) = Some e -> b < e.

Lemma covered_app A span q : covered A q -> covered (A ++ [span]) q.
Proof.
  intros (b & e & Hin & Hq). exists b, e. split; auto.
  apply in_or_app. auto.
Qed.

Lemma matchLoopAt_leftmost fuel : forall li A A',
  matchLoopAt fuel re text li li A = Some A' ->
  (forall q, q < li -> matchesAt re text q -> covered A q) ->
  leftmost re text A ->
  leftmost re text A'
  /\ forall q, q <= List.length text -> matchesAt re text q -> covered A' q.
Proof.
  induction fuel as [|fuel IH]; intros li A A' H Inv L; simpl in H.
  - discriminate.
  - destruct (execAt re li text) as [[[b e]|] li'] eqn:E.
    + apply execAt_found in E.
      destruct E as (Hli & Hbe & Hlen & -> & Hm & Hl).
      pose proof (Hprogress _ _ Hm) as Hlt.
      assert (Q : Nat.eqb e li = false) by (apply Nat.eqb_neq; lia).
      rewrite Q in H. apply IH in H; auto.
      * intros q Hq Mq.
        destruct (Nat.lt_ge_cases q li) as [C|C].
        { apply covered_app. auto. }
        destruct (Nat.lt_ge_cases q b) as [D|D].
        { exfalso. apply (Hl q); auto. }
        exists b, e. split; [apply in_or_app; right; left; reflexivity | lia].
      * intros A1 b1 e1 A2 EA.
        destruct (exists_last_or_nil A2) as [-> | (A2' & z & ->)].
        -- apply app_inj_tail in EA. destruct EA as [<- EA].
           injection EA as <- <-.
           repeat split; auto.
           intros q Hq Mq.
           destruct (Nat.lt_ge_cases q li) as [C|C]; auto.
           exfalso. apply (Hl q); auto.
        -- rewrite app_comm_cons, app_assoc in EA.
           apply app_inj_tail in EA. destruct EA as [EA _].
           eapply L; eauto.
    + injection H as <-. split; auto.
      intros q Hq Mq.
      destruct (Nat.lt_ge_cases q li) as [C|C]; auto.
      exfalso. eapply execAt_none; eauto.
Qed.

Lemma matchSpans_leftmost :
  leftmost re text (matchSpans re text)
  /\ forall q, q <= List.length text -> matchesAt re text q ->
               covered (matchSpans re text) q.
Proof.
  unfold matchSpans.
  destruct (matchLoopAt (S (S (List.length text))) re text 0 0 []) as [A|] eqn:E.
  - eapply matchLoopAt_leftmost; eauto.
    + intros q Hq. lia.
    + intros [|x A1] b e A2 EA; discriminate.
  - exfalso.
    pose proof (@matchLoop_fuel re text Hglobal (S (S (List.length text))) 0 []) as F.
    change (@nil jsstring) with (map (spanText text) []) in F.
    rewrite matchLoop_matchLoopAt, E in F. apply F; simpl; auto; lia.
Qed.

End Global.

End SpanFacts.

(* ===================================================================== *)
(** * The matches of the spread pattern                                   *)
(* ===================================================================== *)

Module SpreadSpanFacts.
Import JS Host Rule Spec SpecExt MatcherFacts PatternFacts SpreadFacts
       SpreadPatternFacts SpanFacts.

Lemma occursAt_firstn text m q :
  occursAt text m q <-> firstn (List.length m) (skipn q text) = m.
Proof. unfold occursAt. rewrite slice_from. tauto. Qed.

Lemma occursAt_skipn text m q :
  occursAt text m q -> exists post, skipn q text = m ++ post.
Proof.
  intros H. apply occursAt_firstn in H.
  exists (skipn (List.length m) (skipn q text)).
  rewrite <- H at 1. symmetry. apply firstn_skipn.
Qed.

Lemma skipn_occursAt text m q post :
  skipn q text = m ++ post -> occursAt text m q.
Proof.
  intros H. apply occursAt_firstn. rewrite H.
  rewrite firstn_app, Nat.sub_diag, firstn_all. simpl. apply app_nil_r.
Qed.

Lemma occursAt_occursIn text m q : occursAt text m q -> occursIn text m.
Proof.
  intros H. destruct (occursAt_skipn H) as (post & E).
  exists (firstn q text), post. rewrite <- E. symmetry. apply firstn_skipn.
Qed.

Lemma occursIn_occursAt text m :
  occursIn text m -> exists q, occursAt text m q.
Proof.
  intros (pre & post & ->). exists (List.length pre).
  apply (@skipn_occursAt _ _ _ post).
  rewrite skipn_app, Nat.sub_diag, skipn_all. reflexivity.
Qed.

Lemma occursAt_bound text m q :
  m <> [] -> occursAt text m q -> q + List.length m <= List.length text.
Proof.
  intros Hne H. apply occursAt_firstn in H.
  apply (f_equal (@List.length code_unit)) in H.
  rewrite length_firstn, length_skipn in H.
  assert (0 < List.length m) by (destruct m; [congruence | simpl; lia]).
  lia.
Qed.

(** The spread pattern never matches the empty string. *)
Lemma spread_progress b s e :
  rmatch (source spreadRegEx) b s (fun e _ => Some e) = Some e -> b < e.
Proof.
  intros H. apply rmatch_sound in H.
  destruct H as (s1 & s2 & _ & M & H). injection H as <-.
  apply spread_matches_shape, spreadShape_length in M. lia.
Qed.

(** A match of the spread pattern at [b] is a spread text at [b]. *)
Lemma spread_match_text text b e :
  rmatch (source spreadRegEx) b (skipn b text) (fun e _ => Some e) = Some e ->
  spreadShape (slice text b e) /\ occursAt text (slice text b e) b
  /\ e = b + List.length (slice text b e).
Proof.
  intros H. apply rmatch_sound in H.
  destruct H as (s1 & s2 & E & M & H). injection H as <-.
  apply spread_matches_shape in M.
  assert (S : slice text b (b + List.length s1) = s1).
  { rewrite slice_from, E, firstn_app, Nat.sub_diag, firstn_all.
    simpl. apply app_nil_r. }
  rewrite S. repeat split; auto; eapply skipn_occursAt; eauto.
Qed.

(** The spread pattern matches wherever a spread text occurs. *)
Lemma spread_matchesAt text m q :
  spreadShape m -> occursAt text m q -> matchesAt spreadRegEx text q.
Proof.
  intros S H. destruct (occursAt_skipn H) as (post & E).
  unfold matchesAt. rewrite E.
  apply rmatch_complete with (s2 := post); [|discriminate].
  apply spread_matches_shape. exact S.
Qed.

(** A spread text that starts inside a match starts where the match
    starts, and is the match. *)
Lemma spread_cover text m q b e :
  rmatch (source spreadRegEx) b (skipn b text) (fun e _ => Some e) = Some e ->
  b <= q < e ->
  spreadShape m -> occursAt text m q ->
  b = q /\ slice text b e = m.
Proof.
  intros Hm Hq S H.
  destruct (spread_match_text _ _ Hm) as (S' & H' & He).
  destruct (Nat.eq_dec b q) as [->|Hne].
  - split; [reflexivity|].
    destruct (occursAt_skipn H) as (post & E).
    destruct (occursAt_skipn H') as (post' & E').
    rewrite E in E'. eapply spreadShape_prefix_unique; eauto.
  - exfalso.
    destruct (proj1 (spreadShape_braces S)) as (tl & -> & _).
    destruct (proj1 (spreadShape_braces S')) as (tl' & Etl' & F').
    destruct (occursAt_skipn H) as (post & E).
    destruct (occursAt_skipn H') as (post' & E').
    assert (N : nth_error text q = Some LBRACE).
    { rewrite <- hd_error_skipn, E. reflexivity. }
    replace q with (b + (q - b)) in N by lia.
    rewrite <- nth_error_skipn, E', nth_error_app1 in N by lia.
    rewrite Etl' in N, He. simpl in He.
    destruct (q - b) as [|i] eqn:D; [lia|]. simpl in N.
    apply nth_error_In in N. rewrite Forall_forall in F'.
    apply (F' _ N). reflexivity.
Qed.

Lemma matchSpans_spread text :
  leftmost spreadRegEx text (matchSpans spreadRegEx text)
  /\ forall q, q <= List.length text -> matchesAt spreadRegEx text q ->
               covered (matchSpans spreadRegEx text) q.
Proof.
  apply matchSpans_leftmost; [reflexivity|]. apply spread_progress.
Qed.

(** Every span of [matchSpans] holds a spread text. *)
Lemma matchSpans_sound text b e :
  In (b, e) (matchSpans spreadRegEx text) ->
  b <= e /\ e <= List.length text
  /\ spreadShape (slice text b e) /\ occursAt text (slice text b e) b.
Proof.
  intros Hin. apply in_split in Hin. destruct Hin as (A1 & A2 & EA).
  destruct (proj1 (matchSpans_spread text) _ _ _ _ EA) as (Hbe & Hlen & Hm & _).
  destruct (spread_match_text _ _ Hm) as (S & H & _).
  auto.
Qed.

(** Every occurrence of a spread text is one of the spans. *)
Lemma matchSpans_complete text m q :
  spreadShape m -> occursAt text m q ->
  In (q, q + List.length m) (matchSpans spreadRegEx text).
Proof.
  intros S H.
  assert (Hne : m <> []).
  { intros ->. apply spreadShape_length in S. simpl in S. lia. }
  pose proof (occursAt_bound Hne H) as B.
  destruct (proj2 (matchSpans_spread text) q) as (b & e & Hin & Hq).
  { lia. }
  { eapply spread_matchesAt; eauto. }
  pose proof Hin as Hin'.
  apply in_split in Hin'. destruct Hin' as (A1 & A2 & EA).
  destruct (proj1 (matchSpans_spread text) _ _ _ _ EA) as (_ & _ & Hm & _).
  destruct (@spread_cover text m q b e Hm Hq S H) as (-> & Em).
  destruct (spread_match_text _ _ Hm) as (_ & _ & He).
  rewrite Em in He. rewrite <- He. exact Hin.
Qed.

(** [indexOf] returns the first occurrence. *)
Lemma indexOf_from_first m text : forall n k,
  occursAt text m n ->
  exists j, indexOf_from text m k = (k + Z.of_nat j)%Z /\ j <= n
            /\ occursAt text m j
            /\ forall q, q < j -> ~ occursAt text m q.
Proof.
  induction text as [|c text IH]; intros n k H.
  - exists 0. apply occursAt_firstn in H.
    rewrite skipn_nil, firstn_nil in H. subst m. simpl.
    split; [lia|]. split; [lia|]. split; [reflexivity|].
    intros q Hq. lia.
  - simpl. destruct (isPrefix m (c :: text)) eqn:P.
    + exists 0. split; [lia|]. split; [lia|]. split.
      * apply occursAt_firstn. simpl skipn. apply isPrefix_firstn. exact P.
      * intros q Hq. lia.
    + assert (N0 : ~ occursAt (c :: text) m 0).
      { intros X. apply occursAt_firstn in X. simpl skipn in X.
        apply isPrefix_firstn in X. congruence. }
      destruct n as [|n]; [contradiction|].
      assert (H' : occursAt text m n).
      { apply occursAt_firstn. apply occursAt_firstn in H. exact H. }
      destruct (IH n (k + 1)%Z H') as (j & Hj & Hle & Ho & Hmin).
      exists (S j). split; [lia|]. split; [lia|]. split.
      * apply occursAt_firstn. apply occursAt_firstn in Ho. exact Ho.
      * intros [|q] Hq; [exact N0|].
        intros X. apply (Hmin q); [lia|].
        apply occursAt_firstn. apply occursAt_firstn in X. exact X.
Qed.

(** A match whose text is not the text of an earlier match is the first
    occurrence of its text. *)
Lemma first_match_indexOf text A1 b e A2 :
  matchSpans spreadRegEx text = A1 ++ (b, e) :: A2 ->
  ~ In (slice text b e) (map (spanText text) A1) ->
  indexOf text (slice text b e) = Z.of_nat b.
Proof.
  intros EA Hnew.
  destruct (proj1 (matchSpans_spread text) _ _ _ _ EA) as (Hbe & Hlen & Hm & Hcov).
  destruct (spread_match_text _ _ Hm) as (S & H & _).
  destruct (indexOf_from_first 0 H) as (j & Hj & Hle & Ho & _).
  unfold indexOf. rewrite Hj. simpl.
  destruct (Nat.eq_dec j b) as [->|Hne]; [reflexivity|].
  exfalso. apply Hnew.
  destruct (Hcov j) as (b' & e' & Hin & Hq).
  { lia. }
  { eapply spread_matchesAt; eauto. }
  assert (Hin' : In (b', e') (matchSpans spreadRegEx text)).
  { rewrite EA. apply in_or_app. auto. }
  apply in_split in Hin'. destruct Hin' as (B1 & B2 & EB).
  destruct (proj1 (matchSpans_spread text) _ _ _ _ EB) as (_ & _ & Hm' & _).
  destruct (@spread_cover text _ j b' e' Hm' Hq S Ho) as (_ & Em).
  rewrite <- Em. apply (in_map (spanText text) A1 (b', e')). exact Hin.
Qed.

Lemma flat_map_map (A B C : Type) (f : A -> B) (g : B -> list C) l :
  flat_map g (map f l) = flat_map (fun x => g (f x)) l.
Proof. induction l; simpl; congruence. Qed.

Lemma flat_map_prefix_ext (A B : Type) (f g : A -> list B) l :
  (forall l1 x l2, l = l1 ++ x :: l2 -> f x = g x) ->
  flat_map f l = flat_map g l.
Proof.
  induction l as [|x l IH]; intros H; simpl; [reflexivity|].
  rewrite (H [] x l eq_refl). f_equal. apply IH.
  intros l1 y l2 E. apply (H (x :: l1) y l2). rewrite E. reflexivity.
Qed.

(** With pairwise distinct matches, the handler's failures are the
    invalid matches at their own positions. *)
Lemma spreadFailures_distinct options sourceFile node :
  NoDup (matchAll spreadRegEx (getText sourceFile node)) ->
  spreadFailures options sourceFile node
  = flat_map (spanFailure options node (getText sourceFile node))
             (matchSpans spreadRegEx (getText sourceFile node)).
Proof.
  intros ND. unfold spreadFailures.
  rewrite matchAll_matchSpans in *. rewrite flat_map_map.
  apply flat_map_prefix_ext. intros A1 [b e] A2 EA.
  rewrite EA, map_app in ND. simpl in ND.
  apply NoDup_remove_2 in ND.
  assert (Hnew : ~ In (slice (getText sourceFile node) b e)
                      (map (spanText (getText sourceFile node)) A1)).
  { intros X. apply ND. apply in_or_app. left. exact X. }
  destruct (proj1 (matchSpans_spread _) _ _ _ _ EA) as (Hbe & Hlen & _).
  unfold spreadFailure, spanFailure, spanText. simpl fst. simpl snd.
  rewrite (@first_match_indexOf _ A1 b e A2 EA Hnew), slice_length by lia.
  reflexivity.
Qed.

End SpreadSpanFacts.

(* ===================================================================== *)
(** * Spread texts under the two policies                                 *)
(* ===================================================================== *)

Module SpreadValidityFacts.
Import JS Host Rule Spec SpecExt MatcherFacts PatternFacts ExpressionFacts
       SpreadPatternFacts SpanFacts.

Ltac app_eq :=
  repeat rewrite <- app_assoc; simpl;
  repeat rewrite <- app_assoc; simpl; reflexivity.

Lemma forallb_rev (p : code_unit -> bool) l :
  forallb p (rev l) = forallb p l.
Proof.
  induction l as [|c l IH]; simpl; [reflexivity|].
  rewrite forallb_app, IH. simpl. rewrite andb_true_r. apply andb_comm.
Qed.

(** The first character outside a run is where the run ends. *)
Lemma run_unique (p : code_unit -> bool) l1 : forall l2 c1 c2 r1 r2,
  forallb p l1 = true -> forallb p l2 = true ->
  p c1 = false -> p c2 = false ->
  l1 ++ c1 :: r1 = l2 ++ c2 :: r2 -> l1 = l2.
Proof.
  induction l1 as [|a l1 IH]; intros [|b l2] c1 c2 r1 r2 F1 F2 P1 P2 E;
    simpl in *.
  - reflexivity.
  - injection E as -> _. apply andb_prop in F2. destruct F2. congruence.
  - injection E as -> _. apply andb_prop in F1. destruct F1. congruence.
  - injection E as -> E. f_equal.
    apply andb_prop in F1. apply andb_prop in F2.
    destruct F1 as [_ F1]. destruct F2 as [_ F2].
    apply (IH l2 c1 c2 r1 r2); assumption.
Qed.

Lemma optNewlineIndent_whiteSpace l :
  optNewlineIndent l -> forallb isWhiteSpace l = true.
Proof. intros [-> | (i & -> & H)]; simpl; auto. Qed.

Lemma isSkippableExpression_degenerate_false text :
  ~ degenerate text -> isSkippableExpression text = false.
Proof.
  intros D. destruct (isSkippableExpression text) eqn:E; [|reflexivity].
  apply isSkippableExpression_degenerate in E. contradiction.
Qed.

Lemma isWhiteSpace_DOT : isWhiteSpace DOT = false.
Proof. reflexivity. Qed.

(** The interior of a spread text: the dots and the path, with its first
    and its last character. *)
Lemma spread_interior path :
  forallb wordOrDot path = true ->
  exists body z,
    [DOT; DOT; DOT] ++ path = DOT :: body ++ [z] /\ isWhiteSpace z = false.
Proof.
  intros Hp. destruct (exists_last_or_nil_cu path) as [-> | (p' & z & ->)].
  - exists [DOT], DOT. split; reflexivity.
  - exists ([DOT; DOT] ++ p'), z. split.
    + reflexivity.
    + rewrite forallb_app in Hp. apply andb_prop in Hp. destruct Hp as [_ Hz].
      simpl in Hz. rewrite andb_true_r in Hz.
      apply wordOrDot_not_whiteSpace. exact Hz.
Qed.

Section Spread.
Variables ws1 path ws2 : jsstring.
Hypothesis Hws1 : forallb isWhiteSpace ws1 = true.
Hypothesis Hpath : forallb wordOrDot path = true.
Hypothesis Hws2 : forallb isWhiteSpace ws2 = true.

(** Under [Always] a spread text is valid when there is whitespace on
    both sides. *)
Lemma spread_spacedShape :
  spacedShape (LBRACE :: ws1 ++ [DOT; DOT; DOT] ++ path ++ ws2 ++ [RBRACE])
  <-> ws1 <> [] /\ ws2 <> [].
Proof.
  destruct (spread_interior path Hpath) as (body & z & Ei & Hz).
  rewrite (app_assoc [DOT; DOT; DOT] path), Ei. split.
  - intros (a & content & b & E & Ha & Hb).
    injection E as E. split.
    + intros ->. simpl in E. injection E as <- _.
      rewrite isWhiteSpace_DOT in Ha. discriminate.
    + intros ->. simpl in E.
      change (a :: content ++ [b; RBRACE])
        with ((a :: content) ++ [b; RBRACE]) in E.
      replace (ws1 ++ DOT :: (body ++ [z]) ++ [RBRACE])
        with ((ws1 ++ DOT :: body) ++ [z; RBRACE]) in E
        by app_eq.
      replace ((ws1 ++ DOT :: body) ++ [z; RBRACE])
        with (((ws1 ++ DOT :: body) ++ [z]) ++ [RBRACE]) in E
        by app_eq.
      replace ((a :: content) ++ [b; RBRACE])
        with (((a :: content) ++ [b]) ++ [RBRACE]) in E
        by app_eq.
      apply app_inj_tail in E. destruct E as [E _].
      apply app_inj_tail in E. destruct E as [_ E]. congruence.
  - intros [N1 N2].
    destruct ws1 as [|a w1]; [congruence|].
    destruct (last_of_run isWhiteSpace N2 Hws2) as (w2 & b & -> & Hb).
    simpl in Hws1. apply andb_prop in Hws1. destruct Hws1 as [Ha _].
    exists a, (w1 ++ (DOT :: body ++ [z]) ++ w2), b.
    split; [|split; assumption].
    app_eq.
Qed.

(** Under [Never] a spread text is valid when the whitespace on either
    side is empty or starts with a newline. *)
Lemma spread_spacelessShape2 :
  spacelessShape2 (LBRACE :: ws1 ++ [DOT; DOT; DOT] ++ path ++ ws2 ++ [RBRACE])
  <-> optNewlineIndent ws1 /\ optNewlineIndent ws2.
Proof.
  destruct (spread_interior path Hpath) as (body & z & Ei & Hz).
  rewrite (app_assoc [DOT; DOT; DOT] path), Ei. split.
  - intros (lead & c & content & d & trail & E & Hl & Ht & Hc & Hd).
    injection E as E.
    pose proof (optNewlineIndent_whiteSpace Hl) as Wl.
    pose proof (optNewlineIndent_whiteSpace Ht) as Wt.
    assert (E1 : ws1 = lead).
    { simpl in E. rewrite <- !app_assoc in E. simpl in E.
      exact (@run_unique isWhiteSpace ws1 lead DOT c _ _
               Hws1 Wl isWhiteSpace_DOT Hc E). }
    assert (E2 : rev ws2 = rev trail).
    { apply (f_equal (@rev code_unit)) in E.
      replace (ws1 ++ (DOT :: body ++ [z]) ++ ws2 ++ [RBRACE])
        with ((ws1 ++ DOT :: body) ++ z :: ws2 ++ [RBRACE]) in E
        by app_eq.
      replace (lead ++ (c :: content ++ [d]) ++ trail ++ [RBRACE])
        with ((lead ++ c :: content) ++ d :: trail ++ [RBRACE]) in E
        by app_eq.
      rewrite !rev_app_distr in E. simpl in E.
      rewrite !rev_app_distr in E. simpl in E.
      injection E as E. rewrite <- !app_assoc in E. simpl in E.
      rewrite <- forallb_rev in Wt.
      pose proof Hws2 as W2. rewrite <- forallb_rev in W2.
      exact (@run_unique isWhiteSpace (rev ws2) (rev trail) z d _ _
               W2 Wt Hz Hd E). }
    apply (f_equal (@rev code_unit)) in E2. rewrite !rev_involutive in E2.
    subst. auto.
  - intros [O1 O2].
    exists ws1, DOT, body, z, ws2. repeat split; auto.
Qed.

End Spread.

End SpreadValidityFacts.

(* ===================================================================== *)
(** * Further properties of the rule                                      *)
(* ===================================================================== *)

Module ValidityProperties.
Import JS Host Rule Spec SpecExt MatcherFacts PatternFacts ExpressionFacts
       ExpressionClaims SpreadPatternFacts SpanFacts SpreadValidityFacts.

(** X1.  [isValidExpression] decides exactly this: under [Always], that
    the text has the spaced shape; under [Never], that it has the
    spaceless shape with an interior of two characters or more; with
    neither option it accepts every text. *)
Theorem isValidExpression_exact options text :
  match policyOf options with
  | Always => isValidExpression options text = true <-> spacedShape text
  | Never => isValidExpression options text = true <-> spacelessShape2 text
  | Unspecified => isValidExpression options text = true
  end.
Proof.
  rewrite isValidExpression_policy. destruct (policyOf options).
  - apply spacedBracesRegex_shape.
  - apply spacelessBracesRegex_shape.
  - reflexivity.
Qed.

(** X2.  Under either policy an expression container whose text is
    shorter than four code units and is not one of the skipped texts is
    reported: the empty container "{}", a single blank "{ }", a single
    character "{a}". *)
Theorem short_texts_reported options sourceFile node :
  policyOf options <> Unspecified ->
  List.length (getText sourceFile node) < 4 ->
  ~ degenerate (getText sourceFile node) ->
  reports (visitJsxExpression options sourceFile node).
Proof.
  intros P L D.
  pose proof (expressionFailures_policy options sourceFile node) as E.
  cbv zeta in E.
  apply isSkippableExpression_degenerate_false in D.
  rewrite D in E. simpl in E.
  destruct (policyOf options); [| |congruence].
  - destruct (test spacedBracesRegex (getText sourceFile node)) eqn:T.
    + apply spacedBracesRegex_shape, spacedShape_length in T. lia.
    + eexists. apply emits_expression_iff. rewrite E. reflexivity.
  - destruct (test spacelessBracesRegex (getText sourceFile node)) eqn:T.
    + apply spacelessBracesRegex_shape, spacelessShape2_length in T. lia.
    + eexists. apply emits_expression_iff. rewrite E. reflexivity.
Qed.

Lemma short_texts_reported_witness :
  reports (visitJsxExpression ["always"%string] (lit "{}")
                              (mkNode JsxExpression 0 2 [])).
Proof.
  apply (@short_texts_reported ["always"%string] (lit "{}")
           (mkNode JsxExpression 0 2 [])).
  - discriminate.
  - simpl. lia.
  - intros [X | [X | X]]; discriminate.
Defined.

(** X3.  A text that is valid under [Always] and under [Never] is
    multi-line on both sides: it starts with "{" and a newline, and ends
    with a newline, indentation and "}". *)
Theorem valid_under_both_is_multiline always never text :
  policyOf always = Always ->
  policyOf never = Never ->
  isValidExpression always text = true ->
  isValidExpression never text = true ->
  exists mid indent,
    text = LBRACE :: LF :: mid ++ LF :: indent ++ [RBRACE]
    /\ forallb isWhiteSpace indent = true.
Proof.
  intros PA PN VA VN.
  rewrite isValidExpression_policy, PA in VA.
  rewrite isValidExpression_policy, PN in VN.
  apply spacedBracesRegex_shape in VA. apply spacelessBracesRegex_shape in VN.
  destruct VA as (a & content & b & E & Ha & Hb).
  destruct VN as (lead & c & content' & d & trail & -> & Hl & Ht & Hc & Hd).
  injection E as E.
  destruct Hl as [-> | (ind1 & -> & H1)].
  { simpl in E. injection E as -> _. congruence. }
  destruct Ht as [-> | (ind2 & -> & H2)].
  { exfalso.
    assert (E' : (((LF :: ind1) ++ c :: content') ++ [d]) ++ [RBRACE]
                 = ((a :: content) ++ [b]) ++ [RBRACE]).
    { match type of E with
      | ?l = ?r => transitivity l; [app_eq | rewrite E; app_eq]
      end. }
    apply app_inj_tail in E'. destruct E' as [E' _].
    apply app_inj_tail in E'. destruct E' as [_ E']. congruence. }
  exists (ind1 ++ c :: content' ++ [d]), ind2. split; [app_eq | exact H2].
Qed.

Lemma valid_under_both_is_multiline_witness :
  exists mid indent,
    lit "{" ++ [LF] ++ lit "ab" ++ [LF] ++ lit "}"
    = LBRACE :: LF :: mid ++ LF :: indent ++ [RBRACE]
    /\ forallb isWhiteSpace indent = true.
Proof.
  apply (@valid_under_both_is_multiline ["always"%string] ["never"%string]
           (lit "{" ++ [LF] ++ lit "ab" ++ [LF] ++ lit "}"));
    reflexivity.
Defined.

(** X5.  Validity of a spread text "{", whitespace, "...", path,
    whitespace, "}": under [Always] it is valid exactly when there is
    whitespace on both sides; under [Never] exactly when the whitespace on
    either side is empty or starts with a newline. *)
Theorem spread_validity options ws1 path ws2 :
  forallb isWhiteSpace ws1 = true ->
  forallb wordOrDot path = true ->
  forallb isWhiteSpace ws2 = true ->
  let m := LBRACE :: ws1 ++ [DOT; DOT; DOT] ++ path ++ ws2 ++ [RBRACE] in
  match policyOf options with
  | Always => isValidExpression options m = true <-> ws1 <> [] /\ ws2 <> []
  | Never =>
      isValidExpression options m = true
      <-> optNewlineIndent ws1 /\ optNewlineIndent ws2
  | Unspecified => isValidExpression options m = true
  end.
Proof.
  intros H1 Hp H2 m. subst m.
  rewrite isValidExpression_policy. destruct (policyOf options).
  - rewrite spacedBracesRegex_shape. apply spread_spacedShape; assumption.
  - rewrite spacelessBracesRegex_shape.
    apply spread_spacelessShape2; assumption.
  - reflexivity.
Qed.

Lemma spread_validity_witness :
  isValidExpression ["always"%string] (lit "{ ...props}") = true
  <-> [SPACE] <> [] /\ @nil code_unit <> [].
Proof.
  exact (@spread_validity ["always"%string] [SPACE] (lit "props") []
           eq_refl eq_refl eq_refl).
Defined.

End ValidityProperties.

Module SpreadProperties.
Import JS Host Rule Spec SpecExt MatcherFacts PatternFacts ExpressionFacts
       SpreadFacts SpreadPatternFacts SpanFacts SpreadSpanFacts.

(** The matches are the spread texts that occur in the text. *)
Lemma In_matchAll_spread text m :
  In m (matchAll spreadRegEx text) <-> spreadShape m /\ occursIn text m.
Proof.
  rewrite matchAll_matchSpans by reflexivity. split.
  - intros H. apply in_map_iff in H. destruct H as ([b e] & <- & Hin).
    destruct (matchSpans_sound _ _ _ Hin) as (_ & _ & S & H).
    split; [exact S | eapply occursAt_occursIn; eauto].
  - intros [S H]. destruct (occursIn_occursAt H) as (q & Hq).
    apply in_map_iff. exists (q, q + List.length m). split.
    + exact Hq.
    + apply matchSpans_complete; assumption.
Qed.

Lemma matchAll_nil_spread text :
  matchAll spreadRegEx text = []
  <-> ~ exists m, spreadShape m /\ occursIn text m.
Proof.
  split.
  - intros E (m & H). apply In_matchAll_spread in H. rewrite E in H. exact H.
  - intros N. destruct (matchAll spreadRegEx text) as [|m A] eqn:E; auto.
    exfalso. apply N. exists m. apply In_matchAll_spread.
    rewrite E. left. reflexivity.
Qed.

(** X4.  [getJsxSpreads] returns exactly the spread texts that occur in
    the text, or [null] when there is none, and [hasSpreadInJsx] answers
    whether there is one; both leave [lastIndex] at 0 whatever it was. *)
Theorem spreads_found_exactly text st :
  exists r,
    getJsxSpreads text st = Ok r (mkState (failures st) 0)
    /\ hasSpreadInJsx text st = Ok (truthy r) (mkState (failures st) 0)
    /\ (r = None <-> ~ exists m, spreadShape m /\ occursIn text m)
    /\ (forall m, (exists arr, r = Some arr /\ In m arr)
                  <-> spreadShape m /\ occursIn text m).
Proof.
  unfold getJsxSpreads, hasSpreadInJsx. rewrite String_match_spread.
  eexists. split; [reflexivity|]. split; [reflexivity|].
  pose proof (matchAll_nil_spread text) as N.
  pose proof (In_matchAll_spread text) as I.
  destruct (matchAll spreadRegEx text) as [|m0 A]; split.
  - split; [intros _; apply N; reflexivity | reflexivity].
  - intros m. rewrite <- I. split.
    + intros (arr & X & _). discriminate.
    + intros [].
  - split; [discriminate|]. intros X. apply N in X. discriminate.
  - intros m. rewrite <- I. split.
    + intros (arr & X & Hin). injection X as <-. exact Hin.
    + intros Hin. eauto.
Qed.

(** X12.  Called on a node whose text holds no spread text, the handler
    throws (it calls [forEach] on [null]); on any other node it does
    not. *)
Theorem handler_throws_without_spread options sourceFile node st :
  handleJsxSpreadNode options sourceFile node st = TypeError
  <-> ~ exists m, spreadShape m /\ occursIn (getText sourceFile node) m.
Proof.
  rewrite handleJsxSpreadNode_run, <- matchAll_nil_spread.
  destruct (matchAll spreadRegEx (getText sourceFile node));
    split; intros; congruence.
Qed.

(** X7.  The matches of [spreadRegEx] are the texts at the positions
    [matchSpans] lists, and these positions are exactly the places of the
    text that hold a spread text. *)
Theorem matchSpans_exact text :
  matchAll spreadRegEx text
  = map (spanText text) (matchSpans spreadRegEx text)
  /\ forall b e,
       In (b, e) (matchSpans spreadRegEx text)
       <-> b <= e /\ e <= List.length text /\ spreadShape (slice text b e).
Proof.
  split; [apply matchAll_matchSpans; reflexivity|].
  intros b e. split.
  - intros H. destruct (matchSpans_sound _ _ _ H) as (? & ? & ? & _). auto.
  - intros (Hbe & Hlen & S).
    pose proof (slice_occursAt text Hbe Hlen) as H.
    pose proof (matchSpans_complete S H) as Hin.
    rewrite slice_length in Hin by lia.
    replace (b + (e - b)) with e in Hin by lia. exact Hin.
Qed.

Lemma getText_length sourceFile node :
  inFile sourceFile node ->
  Z.of_nat (List.length (getText sourceFile node))
  = (getEnd node - getStart node)%Z.
Proof.
  intros [[Hs He] Hl]. unfold getText.
  destruct (Z_of_nat_complete (getStart node)) as (s & Es); [lia|].
  destruct (Z_of_nat_complete (getEnd node)) as (e & Ee); [lia|].
  rewrite Es, Ee in *.
  rewrite substring_in_range, slice_length by lia. lia.
Qed.

(** X6.  For an element inside the file, every failure the spread handler
    adds lies inside the element, and is at least five code units wide. *)
Theorem spread_failures_within_element options sourceFile node :
  inFile sourceFile node ->
  forall super st,
  exists found,
    visitJsxElement options sourceFile node super st
    = super (mkState (failures st ++ found) 0)
    /\ visitJsxSelfClosingElement options sourceFile node super st
       = super (mkState (failures st ++ found) 0)
    /\ Forall (fun f =>
                 (getStart node <= failureStart f)%Z
                 /\ (failureStart f + failureWidth f <= getEnd node)%Z
                 /\ (5 <= failureWidth f)%Z)
              found.
Proof.
  intros Hin super st. exists (spreadFailures options sourceFile node).
  split; [apply visitJsxElement_run|].
  split; [apply visitJsxSelfClosingElement_run|].
  unfold spreadFailures. apply Forall_flat_map, Forall_forall.
  intros m Hm. apply In_matchAll_spread in Hm. destruct Hm as [S Ho].
  destruct (occursIn_occursAt Ho) as (n & Hn).
  destruct (indexOf_found Hn) as (j & Ej & Hj).
  pose proof (spreadShape_length S) as L5.
  assert (Hne : m <> []) by (intros ->; simpl in L5; lia).
  pose proof (occursAt_bound Hne Hj) as B.
  pose proof (getText_length Hin) as GL.
  unfold spreadFailure, messageFor. rewrite Ej.
  destruct (negb _); [|constructor].
  destruct (hasOption options OPTION_ALWAYS);
    [|destruct (hasOption options OPTION_NEVER)];
    repeat constructor; cbn [failureStart failureWidth]; lia.
Qed.

Lemma spread_failures_within_element_witness :
  exists found,
    visitJsxElement ["never"%string] (lit "<a { ...b }>x</a>")
                    (mkNode JsxElement 0 17 []) (@ret unit tt) (mkState [] 0)
    = @ret unit tt (mkState ([] ++ found) 0)
    /\ visitJsxSelfClosingElement ["never"%string] (lit "<a { ...b }>x</a>")
         (mkNode JsxElement 0 17 []) (@ret unit tt) (mkState [] 0)
       = @ret unit tt (mkState ([] ++ found) 0)
    /\ Forall (fun f =>
                 (0 <= failureStart f)%Z
                 /\ (failureStart f + failureWidth f <= 17)%Z
                 /\ (5 <= failureWidth f)%Z)
              found.
Proof.
  apply (@spread_failures_within_element ["never"%string]
           (lit "<a { ...b }>x</a>") (mkNode JsxElement 0 17 [])).
  unfold inFile. simpl. lia.
Defined.

(** X8.  When the spread texts of an element are pairwise distinct, the
    failures the handler adds are the invalid matches in order, each at
    the element's start plus the position of the match and as wide as the
    match. *)
Theorem distinct_spreads_own_offsets options sourceFile node :
  NoDup (matchAll spreadRegEx (getText sourceFile node)) ->
  forall super st,
    visitJsxElement options sourceFile node super st
    = super (mkState
               (failures st
                  ++ flat_map (spanFailure options node (getText sourceFile node))
                              (matchSpans spreadRegEx (getText sourceFile node)))
               0)
    /\ visitJsxSelfClosingElement options sourceFile node super st
       = super (mkState
                  (failures st
                     ++ flat_map (spanFailure options node (getText sourceFile node))
                                 (matchSpans spreadRegEx (getText sourceFile node)))
                  0).
Proof.
  intros ND super st.
  rewrite visitJsxElement_run, visitJsxSelfClosingElement_run.
  rewrite spreadFailures_distinct by exact ND. split; reflexivity.
Qed.

Lemma distinct_spreads_own_offsets_witness :
  visitJsxElement ["always"%string]
                  (lit "<div {...a}><span {...b}/></div>")
                  (mkNode JsxElement 0 32 []) (@ret unit tt) (mkState [] 0)
  = Ok tt (mkState [createFailure 5 6 ALWAYS_FAILURE_STRING;
                    createFailure 18 6 ALWAYS_FAILURE_STRING] 0).
Proof.
  refine (proj1 (@distinct_spreads_own_offsets ["always"%string]
                   (lit "<div {...a}><span {...b}/></div>")
                   (mkNode JsxElement 0 32 []) _ (@ret unit tt) (mkState [] 0))).
  repeat constructor; simpl; intuition discriminate.
Defined.

End SpreadProperties.

Module RunProperties.
Import JS Host Rule Spec SpecExt ExpressionFacts SpreadFacts WalkFacts.

Lemma ownFailures_policy options1 options2 sourceFile n :
  policyOf options1 = policyOf options2 ->
  ownFailures options1 sourceFile n = ownFailures options2 sourceFile n.
Proof.
  intros P.
  assert (V : forall text, isValidExpression options1 text
                           = isValidExpression options2 text).
  { intros text. rewrite !isValidExpression_policy, P. reflexivity. }
  assert (M : forall s w, messageFor options1 s w = messageFor options2 s w).
  { intros s w. rewrite !messageFor_policy, P. reflexivity. }
  unfold ownFailures, spreadFailures, expressionFailures.
  destruct (kind n); try reflexivity.
  - apply flat_map_ext. intros m. unfold spreadFailure. rewrite V, M. reflexivity.
  - apply flat_map_ext. intros m. unfold spreadFailure. rewrite V, M. reflexivity.
  - rewrite V, M. reflexivity.
Qed.

(** X9.  A run depends on the options only through the policy they
    select: order, repetition and other tokens make no difference. *)
Theorem apply_depends_on_policy options1 options2 :
  policyOf options1 = policyOf options2 ->
  forall sourceFile root lastIndex,
    apply options1 sourceFile root lastIndex
    = apply options2 sourceFile root lastIndex.
Proof.
  intros P sourceFile root li. rewrite !apply_run.
  rewrite (@treeFailures_ext options1 options2 sourceFile); auto.
  intros n. apply ownFailures_policy. exact P.
Qed.

Lemma apply_depends_on_policy_witness :
  apply ["other"%string; "never"%string; "never"%string] (lit "<a>{ b }</a>")
        (mkNode JsxElement 0 12 [mkNode JsxExpression 3 8 []]) 0
  = apply ["never"%string] (lit "<a>{ b }</a>")
          (mkNode JsxElement 0 12 [mkNode JsxExpression 3 8 []]) 0.
Proof.
  apply (@apply_depends_on_policy
           ["other"%string; "never"%string; "never"%string] ["never"%string]
           eq_refl).
Defined.

Lemma ownFailures_message options sourceFile n (Q : RuleFailure -> Prop) :
  (forall s w, Forall Q (messageFor options s w)) ->
  Forall Q (ownFailures options sourceFile n).
Proof.
  intros H. unfold ownFailures, spreadFailures, expressionFailures.
  assert (S : forall m, Forall Q (spreadFailure options sourceFile n m)).
  { intros m. unfold spreadFailure. destruct (negb _); [apply H | constructor]. }
  destruct (kind n); try constructor.
  - apply Forall_flat_map, Forall_forall. intros m _. apply S.
  - apply Forall_flat_map, Forall_forall. intros m _. apply S.
  - destruct (negb _ && negb _); [apply H | constructor].
Qed.

(** X10.  Every run completes; under [Always] all its failures carry the
    [Always] message, under [Never] all carry the [Never] message, and
    with neither option the run returns no failure at all, whatever the
    tree. *)
Theorem run_failures_by_policy options sourceFile root lastIndex :
  exists fs st,
    apply options sourceFile root lastIndex = Ok fs st
    /\ match policyOf options with
       | Always =>
           Forall (fun f => failureMessage f = ALWAYS_FAILURE_STRING) fs
       | Never =>
           Forall (fun f => failureMessage f = NEVER_FAILURE_STRING) fs
       | Unspecified => fs = []
       end.
Proof.
  do 2 eexists. split; [apply apply_run|].
  destruct (policyOf options) eqn:P.
  - apply keptFailures_Forall, treeFailures_Forall.
    intros n. apply ownFailures_message.
    intros s w. rewrite messageFor_policy, P. repeat constructor.
  - apply keptFailures_Forall, treeFailures_Forall.
    intros n. apply ownFailures_message.
    intros s w. rewrite messageFor_policy, P. repeat constructor.
  - assert (F : Forall (fun _ => False) (treeFailures options sourceFile root)).
    { apply treeFailures_Forall. intros n. apply ownFailures_message.
      intros s w. rewrite messageFor_policy, P. constructor. }
    destruct (treeFailures options sourceFile root) as [|f fs]; [reflexivity|].
    inversion F; contradiction.
Qed.

(** X11.  The calls to [addFailure] during a walk come in document order:
    first those of the node's own visitor, then those of the walk of each
    child, from left to right; a run returns this sequence as the walker
    keeps it, with a failure equal to an earlier one dropped. *)
Theorem run_is_preorder options sourceFile k s e cs lastIndex :
  exists own childCalls st,
    apply options sourceFile (mkNode k s e cs) lastIndex
    = Ok (keptFailures (own ++ List.concat childCalls)) st
    /\ hands options sourceFile (mkNode k s e []) own
    /\ Forall2 (hands options sourceFile) cs childCalls.
Proof.
  exists (ownFailures options sourceFile (mkNode k s e cs)),
         (map (treeFailures options sourceFile) cs).
  eexists. split; [|split].
  - rewrite apply_run, treeFailures_unfold. unfold childrenFailures.
    rewrite flat_map_concat_map. reflexivity.
  - pose proof (visitNode_hands options sourceFile (mkNode k s e [])) as H.
    rewrite treeFailures_unfold in H. unfold childrenFailures in H.
    simpl flat_map in H. rewrite app_nil_r in H. exact H.
  - induction cs as [|c cs IH]; simpl; constructor; auto.
    apply visitNode_hands.
Qed.

End RunProperties.

Module NestingProperties.
Import JS Host Rule Spec SpecExt ExpressionFacts SpreadFacts WalkFacts
       SpreadPatternFacts SpanFacts SpreadSpanFacts SpreadProperties.







End NestingProperties.
